(** * skipper: route ordering, simulation and sizing; mempool deduplication

    A shallow embedding of [src/route.py] (class [Route]) and of the mempool
    watcher of [src/querier/queriers/cosmwasm.py]
    ([CosmWasmQuerier.query_node_for_new_mempool_txs]).

    Python objects are mutable and shared: a [Route] holds references to
    [Pool] objects, and the same object may sit at several positions of
    [Route.pools].  Pools therefore live in a store indexed by locations and
    a route holds locations.  A raised exception is the result [None]. *)

From Stdlib Require Import ZArith SpecFloat Strings.Byte.
From stdpp Require Import strings pretty gmap functions list.

Local Open Scope Z_scope.
#[local] Set Warnings "-clear-no-such-hyp,-register-all".

(** ** Python numbers

    [route.py] mixes [int] reserves with fee rates and intermediate values
    that are floats.  The development is parametric in the number type and
    in the arithmetic the interpreter performs on it; an operation that
    raises ([ZeroDivisionError], [ValueError], [OverflowError]) gives
    [None]. *)

Class PyArith (num : Type) := {
  of_int : Z → num;
  py_add : num → num → option num;
  py_sub : num → num → option num;
  py_mul : num → num → option num;
  py_truediv : num → num → option num;
  math_sqrt : num → option num;
  math_floor : num → option Z
}.

(** Arithmetic on results that may already have raised. *)
Definition lift2 {A B C} (op : A → B → option C) (x : option A)
    (y : option B) : option C :=
  a ← x; b ← y; op a b.

Definition lift1 {A B} (f : A → option B) (x : option A) : option B :=
  a ← x; f a.

Declare Scope py_scope.
Delimit Scope py_scope with py.
Notation "x ⊕ y" := (lift2 py_add x y)
  (at level 50, left associativity) : py_scope.
Notation "x ⊖ y" := (lift2 py_sub x y)
  (at level 50, left associativity) : py_scope.
Notation "x ⊗ y" := (lift2 py_mul x y)
  (at level 40, left associativity) : py_scope.
Notation "x ⊘ y" := (lift2 py_truediv x y)
  (at level 40, left associativity) : py_scope.

(** A [for] loop whose body threads a state and may raise. *)
Fixpoint for_each {A S} (body : S → A → option S) (l : list A) (s : S)
    : option S :=
  match l with
  | [] => Some s
  | x :: l' => s' ← body s x; for_each body l' s'
  end.

(** [enumerate(l)] *)
Definition enumerate {A} (l : list A) : list (nat * A) := imap pair l.

(** [zip(a, b, c, d)]: stops with the shortest argument. *)
Fixpoint zip4 {A B C D} (a : list A) (b : list B) (c : list C) (d : list D)
    : list (A * B * C * D) :=
  match a, b, c, d with
  | x :: a', y :: b', z :: c', w :: d' => (x, y, z, w) :: zip4 a' b' c' d'
  | _, _, _, _ => []
  end.

(** ** Data model *)

(** A location of the store: the identity of a Python object. *)
Definition loc := nat.

(** The fields of [Swap] (src/swap.py) that [route.py] reads. *)
Record Swap := {
  contract_address : string;
  output_denom : string
}.

(** [Route] of [route.py]; [pools] holds references. *)
Record Route := {
  pools : list loc;
  profit : Z;
  optimal_amount_in : Z;
  amount_in : Z
}.

Definition set_pools (l : list loc) (self : Route) : Route :=
  {| pools := l; profit := profit self;
     optimal_amount_in := optimal_amount_in self; amount_in := amount_in self |}.

Definition set_profit (v : Z) (self : Route) : Route :=
  {| pools := pools self; profit := v;
     optimal_amount_in := optimal_amount_in self; amount_in := amount_in self |}.

Definition set_optimal_amount_in (v : Z) (self : Route) : Route :=
  {| pools := pools self; profit := profit self;
     optimal_amount_in := v; amount_in := amount_in self |}.

Definition set_amount_in (v : Z) (self : Route) : Route :=
  {| pools := pools self; profit := profit self;
     optimal_amount_in := optimal_amount_in self; amount_in := v |}.

(** [self.pools.reverse()] *)
Definition pools_reverse (self : Route) : Route :=
  set_pools (reverse (pools self)) self.

Section Pools.

Context {num : Type}.

(** The fields of [Pool] (src/contract.py) that [route.py] reads and writes. *)
Record Pool := {
  token1_denom : string;
  token2_denom : string;
  input_reserves : Z;
  output_reserves : Z;
  lp_fee : num;
  protocol_fee : num;
  fee_from_input : bool;
  pool_amount_in : Z;
  pool_amount_out : Z
}.

Definition set_pool_amount_in (v : Z) (p : Pool) : Pool :=
  {| token1_denom := token1_denom p; token2_denom := token2_denom p;
     input_reserves := input_reserves p; output_reserves := output_reserves p;
     lp_fee := lp_fee p; protocol_fee := protocol_fee p;
     fee_from_input := fee_from_input p;
     pool_amount_in := v; pool_amount_out := pool_amount_out p |}.

Definition set_pool_amount_out (v : Z) (p : Pool) : Pool :=
  {| token1_denom := token1_denom p; token2_denom := token2_denom p;
     input_reserves := input_reserves p; output_reserves := output_reserves p;
     lp_fee := lp_fee p; protocol_fee := protocol_fee p;
     fee_from_input := fee_from_input p;
     pool_amount_in := pool_amount_in p; pool_amount_out := v |}.

(** The store of pool objects. *)
Definition heap := loc → Pool.

(** ** [Route.order_pools] *)

Section Order.

(** [Pool.__eq__]: src/contract.py is not part of the sources, so the
    comparison [list.index] falls back on is a parameter (structural for a
    dataclass, constantly [false] for a plain class). *)
Variable Pool_eq : Pool → Pool → bool.

(** [l.index(x)]: the first position holding [x] itself or an object equal
    to it; [ValueError] when there is none. *)
Fixpoint list_index (h : heap) (x : loc) (l : list loc) : option nat :=
  match l with
  | [] => None
  | y :: l' =>
      if bool_decide (y = x) || Pool_eq (h y) (h x) then Some 0%nat
      else S <$> list_index h x l'
  end.

Definition _order_first_pool (input_denom arb_denom : string)
    (self : Route) : Route :=
  if decide (input_denom ≠ arb_denom) then pools_reverse self else self.

Definition _order_second_pool (h : heap) (input_denom arb_denom : string)
    (self : Route) : option Route :=
  first_pool ← pools self !! 0%nat;
  let output_denom :=
    if decide (token1_denom (h first_pool) ≠ arb_denom)
    then token1_denom (h first_pool)
    else token2_denom (h first_pool) in
  Some (if decide (input_denom ≠ output_denom) then pools_reverse self
        else self).

Definition _order_last_pool (input_denom arb_denom : string)
    (self : Route) : Route :=
  if decide (input_denom = arb_denom) then pools_reverse self else self.

Definition order_pools (h : heap) (contracts : gmap string loc) (swap : Swap)
    (arb_denom : string) (self : Route) : option Route :=
  pool ← contracts !! contract_address swap;
  swapped_self_index ← list_index h pool (pools self);
  let input_denom := output_denom swap in
  match swapped_self_index with
  | 0%nat => Some (_order_first_pool input_denom arb_denom self)
  | 1%nat => _order_second_pool h input_denom arb_denom self
  | 2%nat => Some (_order_last_pool input_denom arb_denom self)
  | _ => Some self
  end.

End Order.

(** *** Denom cycles

    A pool trades its two denoms against each other in either direction:
    fed [d], it pays out the other one. *)
Definition other_denom (p : Pool) (d : string) : option string :=
  if decide (token1_denom p = d) then Some (token2_denom p)
  else if decide (token2_denom p = d) then Some (token1_denom p)
  else None.

(** The denom that leaves the last pool of [l] when [d] enters the first and
    every pool is fed what the one before it pays out; [None] when some pool
    does not trade the denom it is fed. *)
Fixpoint denom_after (h : heap) (d : string) (l : list loc) : option string :=
  match l with
  | [] => Some d
  | p :: l' => d' ← other_denom (h p) d; denom_after h d' l'
  end.

(** [l] is a cycle through [arb_denom]: it starts from it and returns it. *)
Definition denom_cycle (h : heap) (arb_denom : string) (l : list loc) : Prop :=
  denom_after h arb_denom l = Some arb_denom.

(** *** The reversal rule, as the specification words it

    Position 0, position 1 and the last position each have their test. *)
Definition reverses_as_specified (h : heap) (swap : Swap) (arb_denom : string)
    (self : Route) (position : nat) : option bool :=
  match position with
  | 0%nat => Some (bool_decide (output_denom swap ≠ arb_denom))
  | 1%nat =>
      first_pool ← pools self !! 0%nat;
      let outward :=
        if decide (token1_denom (h first_pool) = arb_denom)
        then token2_denom (h first_pool)
        else token1_denom (h first_pool) in
      Some (bool_decide (output_denom swap ≠ outward))
  | _ =>
      if decide (S position = length (pools self))
      then Some (bool_decide (output_denom swap = arb_denom))
      else None
  end.

(** ** [Route.calculate_and_set_profit] *)

Section Profit.

(** [calculate_swap] of src/swap.py, which is not part of the sources: a
    parameter, from its six keyword arguments to the triple it returns. *)
Variable calculate_swap : Z → Z → Z → num → num → bool → Z * Z * Z.

(** [amount_out] of the call for pool [p] with [amount_in=a]. *)
Definition pool_swap (p : Pool) (a : Z) : Z :=
  (calculate_swap (input_reserves p) (output_reserves p) a
     (lp_fee p) (protocol_fee p) (fee_from_input p)).1.1.

(** What leaves the last pool of [l] when [a] enters the first and every
    pool is fed what the one before it pays out. *)
Definition amount_after (h : heap) (a : Z) (l : list loc) : Z :=
  foldl (λ a pool, pool_swap (h pool) a) a l.

(** A pool with its two transient fields reset, and stores that differ in
    those fields only. *)
Definition clear_amounts (p : Pool) : Pool :=
  set_pool_amount_in 0 (set_pool_amount_out 0 p).

Definition same_but_amounts (h h' : heap) : Prop :=
  ∀ q, clear_amounts (h' q) = clear_amounts (h q).

(** One pass of the loop body for [(i, pool)] of [enumerate(self.pools)]. *)
Definition profit_body (self : Route) (h : heap) (ip : nat * loc)
    : option heap :=
  let '(i, pool) := ip in
  h1 ← match i with
       | 0%nat => Some (<[pool := set_pool_amount_in (amount_in self) (h pool)]> h)
       | S j =>
           prev ← pools self !! j;
           Some (<[pool := set_pool_amount_in (pool_amount_out (h prev))
                             (h pool)]> h)
       end;
  let p := h1 pool in
  let '(out, _, _) :=
    calculate_swap (input_reserves p) (output_reserves p) (pool_amount_in p)
      (lp_fee p) (protocol_fee p) (fee_from_input p) in
  Some (<[pool := set_pool_amount_out out p]> h1).

(** The value returned, the store and the route after the call. *)
Definition calculate_and_set_profit (h : heap) (self : Route)
    : option (Z * heap * Route) :=
  h' ← for_each (profit_body self) (enumerate (pools self)) h;
  last_pool ← last (pools self);
  first_pool ← pools self !! 0%nat;
  let self' :=
    set_profit (pool_amount_out (h' last_pool) - pool_amount_in (h' first_pool))
      self in
  Some (profit self', h', self').

End Profit.

(** ** [Route.calculate_and_set_optimal_amount_in] *)

Section Optimal.

Context `{!PyArith num}.
Local Open Scope py_scope.

(** The four lists the first loop fills. *)
Definition fee_lists : Type := list Z * list Z * list num * list num.

Definition append_pool (h : heap) (ls : fee_lists) (pool : loc)
    : option fee_lists :=
  let '(input_reserves_, output_reserves_, input_fees, output_fees) := ls in
  let p := h pool in
  if fee_from_input p then
    fee ← Some (of_int 1) ⊖ (Some (lp_fee p) ⊕ Some (protocol_fee p));
    Some (input_reserves_ ++ [input_reserves p],
          output_reserves_ ++ [output_reserves p],
          input_fees ++ [fee], output_fees ++ [of_int 1])
  else
    fee ← Some (of_int 1) ⊖ (Some (lp_fee p) ⊕ Some (protocol_fee p));
    Some (input_reserves_ ++ [input_reserves p],
          output_reserves_ ++ [output_reserves p],
          input_fees ++ [of_int 1], output_fees ++ [fee]).

(** The body of the second loop, on [(a_prime_in, a_prime_out)]. *)
Definition a_prime_body (a : num * num) (x : Z * Z * num * num)
    : option (num * num) :=
  let '(a_prime_in, a_prime_out) := a in
  let '(in_res, out_res, in_fee, out_fee) := x in
  a_prime_in' ←
    (Some a_prime_in ⊗ Some (of_int in_res))
    ⊘ (Some (of_int in_res)
       ⊕ (Some in_fee ⊗ Some out_fee ⊗ Some a_prime_out));
  a_prime_out' ←
    (Some in_fee ⊗ Some out_fee ⊗ Some (of_int out_res) ⊗ Some a_prime_out)
    ⊘ (Some (of_int in_res)
       ⊕ (Some in_fee ⊗ Some out_fee ⊗ Some a_prime_out));
  Some (a_prime_in', a_prime_out').

Definition calculate_and_set_optimal_amount_in (h : heap) (self : Route)
    : option Route :=
  '(input_reserves_, output_reserves_, input_fees, output_fees) ←
    for_each (append_pool h) (pools self) ([], [], [], []);
  a_prime_in ← of_int <$> input_reserves_ !! 0%nat;
  a_prime_out ← of_int <$> output_reserves_ !! 0%nat;
  '(a_prime_in, a_prime_out) ←
    for_each a_prime_body
      (zip4 (drop 1 input_reserves_) (drop 1 output_reserves_)
            (drop 1 input_fees) (drop 1 output_fees))
      (a_prime_in, a_prime_out);
  v ← lift1 math_floor
        ((lift1 math_sqrt (input_fees !! 0%nat ⊗ output_fees !! 0%nat
                           ⊗ Some a_prime_out ⊗ Some a_prime_in)
          ⊖ Some a_prime_in)
         ⊘ input_fees !! 0%nat);
  Some (set_optimal_amount_in v self).

(** *** The closed form, as the specification words it *)

(** The multipliers [(f_i, g_i)] of a pool. *)
Definition multipliers (p : Pool) : option (num * num) :=
  rate ← Some (lp_fee p) ⊕ Some (protocol_fee p);
  keep ← py_sub (of_int 1) rate;
  Some (if fee_from_input p then (keep, of_int 1) else (of_int 1, keep)).

(** Folding pool [p] into [(A_in, A_out)]. *)
Definition fold_pool (A : num * num) (p : Pool) : option (num * num) :=
  '(f, g) ← multipliers p;
  let r_in := Some (of_int (input_reserves p)) in
  let r_out := Some (of_int (output_reserves p)) in
  let A_in := Some A.1 in
  let A_out := Some A.2 in
  A_in' ← (A_in ⊗ r_in) ⊘ (r_in ⊕ Some f ⊗ Some g ⊗ A_out);
  A_out' ← (Some f ⊗ Some g ⊗ r_out ⊗ A_out) ⊘ (r_in ⊕ Some f ⊗ Some g ⊗ A_out);
  Some (A_in', A_out').

(** [optimal_in] for first pool [p0] and the pools [rest] after it. *)
Definition closed_form_optimal_in (p0 : Pool) (rest : list Pool) : option Z :=
  A ← for_each fold_pool rest
         (of_int (input_reserves p0), of_int (output_reserves p0));
  '(f0, g0) ← multipliers p0;
  lift1 math_floor
    ((lift1 math_sqrt (Some f0 ⊗ Some g0 ⊗ Some A.2 ⊗ Some A.1) ⊖ Some A.1)
     ⊘ Some f0).

End Optimal.

End Pools.

Arguments Pool : clear implicits.
Arguments heap : clear implicits.

(** ** [Route.calculate_and_set_amount_in] *)

Definition calculate_and_set_amount_in (account_balance gas_fee : Z)
    (self : Route) : Route :=
  if decide (optimal_amount_in self ≤ 0) then self
  else if decide (optimal_amount_in self > account_balance - gas_fee)
  then set_amount_in (account_balance - gas_fee) self
  else set_amount_in (optimal_amount_in self) self.

(** ** [CosmWasmQuerier.query_node_for_new_mempool_txs] *)

(** What one round of the loop gets from the node: the outcomes the loop
    handles.  [time.sleep] is not modelled, and an exception the code does
    not catch ends the call without a result.  [Txs []] stands for every
    falsy [mempool['txs']]. *)
Inductive poll :=
  | NoResponse                  (* [_query_unconfirmed_txs] returned [None] *)
  | NoMempool                   (* [_get_mempool_from_response] returned [None] *)
  | NoTxsKey                    (* ['txs' not in mempool] *)
  | Txs (txs : list string).    (* [mempool['txs']] *)

(** The [for tx in mempool['txs']] loop, on [(already_seen, new_txs)]. *)
Definition tx_body (s : gset string * list string) (tx : string)
    : gset string * list string :=
  let '(already_seen, new_txs) := s in
  if decide (tx ∈ already_seen) then (already_seen, new_txs)
  else ({[tx]} ∪ already_seen, new_txs ++ [tx]).

(** One round of [while True]: the cache afterwards, and the list returned
    when the round returns. *)
Definition poll_round (already_seen : gset string) (r : poll)
    : gset string * option (list string) :=
  let already_seen :=
    if decide (200 < size already_seen)%nat then ∅ else already_seen in
  match r with
  | NoResponse | NoMempool | NoTxsKey | Txs [] => (already_seen, None)
  | Txs txs =>
      let '(already_seen, new_txs) := foldl tx_body (already_seen, []) txs in
      (already_seen, match new_txs with [] => None | _ => Some new_txs end)
  end.

(** The loop against a node that answers the successive rounds with [node];
    [None] while the loop is still polling when [node] is used up. *)
Fixpoint query_node_for_new_mempool_txs (node : list poll)
    (already_seen : gset string) : option (list string * gset string) :=
  match node with
  | [] => None
  | r :: node' =>
      match poll_round already_seen r with
      | (already_seen', Some new_txs) => Some (new_txs, already_seen')
      | (already_seen', None) =>
          query_node_for_new_mempool_txs node' already_seen'
      end
  end.

(** The cache after the rounds [node], none of which need return. *)
Definition cache_after (node : list poll) (already_seen : gset string)
    : gset string :=
  foldl (λ seen r, (poll_round seen r).1) already_seen node.

(** The cache as a round's batch finds it: emptied when it had grown past
    200 entries. *)
Definition cache_for_batch (already_seen : gset string) : gset string :=
  if decide (200 < size already_seen)%nat then ∅ else already_seen.

(** The identifiers of a batch, each once, in the order in which they first
    appear, and those of them that a cache does not hold. *)
Definition first_appearances (txs : list string) : list string :=
  reverse (remove_dups (reverse txs)).

Definition unseen (cache : gset string) (txs : list string) : list string :=
  filter (λ tx, tx ∉ cache) (first_appearances txs).

(** A round that brings nothing the cache does not hold. *)
Definition nothing_new (cache : gset string) (r : poll) : Prop :=
  match r with
  | Txs txs => ∀ tx, tx ∈ txs → tx ∈ cache
  | _ => True
  end.

(** ** [CosmWasmQuerier.update_account_balance] *)

(** The exceptions the querier names in its handlers, the [KeyError] of a
    missing key, and any other one. *)
Inductive exn :=
  | ConnectTimeout
  | ReadTimeout
  | ConnectError
  | RemoteProtocolError
  | KeyError
  | OtherException.

Inductive result (A : Type) :=
  | Ok (a : A)
  | Raised (e : exn).
Arguments Ok {A} a.
Arguments Raised {A} e.

(** What [client.query_bank_balance] does: it returns the balance, raises
    [requests.exceptions.ConnectionError], or raises something else. *)
Inductive balance_query :=
  | Balance (account_balance : Z)
  | ConnectionLost
  | QueryRaises (e : exn).

(** [new_client] is what [LedgerClient(network_config)] does in the
    handler: it returns, or raises. *)
Definition update_account_balance (q : balance_query)
    (new_client : result unit) : result (Z * bool) :=
  match q with
  | Balance account_balance => Ok (account_balance, false)
  | ConnectionLost =>
      match new_client with
      | Ok _ => Ok (0, true)
      | Raised e => Raised e
      end
  | QueryRaises e => Raised e
  end.

(** ** [CosmWasmQuerier.create_payload] *)

(** The Python values a payload is made of; a [dict] keeps its items in
    insertion order. *)
Inductive py :=
  | PStr (s : string)
  | PInt (z : Z)
  | PBool (b : bool)
  | PDict (items : list (string * py)).

(** [d[k] = v]: the value of an existing key is replaced in place, a new
    key goes last. *)
Fixpoint dict_set (k : string) (v : py) (items : list (string * py))
    : list (string * py) :=
  match items with
  | [] => [(k, v)]
  | (k', v') :: items' =>
      if decide (k' = k) then (k, v) :: items'
      else (k', v') :: dict_set k v items'
  end.


(** [base64.b16encode]: two upper-case hexadecimal digits for each byte;
    and [base64.b16decode], which refuses anything else. *)
Definition hex_digit (n : nat) : Ascii.ascii :=
  nth n (String.list_ascii_of_string "0123456789ABCDEF") Ascii.zero.

Fixpoint b16encode (data : list byte) : string :=
  match data with
  | [] => EmptyString
  | b :: data' =>
      String (hex_digit (Byte.to_nat b / 16))
        (String (hex_digit (Byte.to_nat b mod 16)) (b16encode data'))
  end.

Definition hex_value (c : Ascii.ascii) : option nat :=
  let n := Ascii.nat_of_ascii c in
  if decide (48 ≤ n ≤ 57)%nat then Some (n - 48)%nat
  else if decide (65 ≤ n ≤ 70)%nat then Some (n - 55)%nat
  else None.

Fixpoint b16decode (s : string) : option (list byte) :=
  match s with
  | EmptyString => Some []
  | String hi (String lo s') =>
      h ← hex_value hi; l ← hex_value lo;
      b ← Byte.of_nat (16 * h + l);
      data ← b16decode s';
      Some (b :: data)
  | String _ EmptyString => None
  end.

Section Payload.

(** The type of [query], and the bytes of the request: what
    [QuerySmartContractStateRequest.SerializeToString] gives for the
    address and [json.dumps(query).encode('utf-8')].  Both come from
    libraries and are parameters. *)
Context {Query : Type}.
Variable request_bytes : string → Query → list byte.

Definition create_payload (contract_address : string) (query : Query)
    (height : string) : py :=
  let data := request_bytes contract_address query in
  let params :=
    [("path"%string, PStr "/cosmwasm.wasm.v1.Query/SmartContractState");
     ("data"%string, PStr (b16encode data));
     ("prove"%string, PBool false)] in
  let params :=
    if decide (height ≠ EmptyString)
    then dict_set "height" (PStr height) params
    else params in
  PDict [("jsonrpc"%string, PStr "2.0"); ("id"%string, PInt 1);
         ("method"%string, PStr "abci_query");
         ("params"%string, PDict params)].

End Payload.

(** ** An instance of the arithmetic: CPython's [int] and [float]

    [float] is IEEE 754 binary64, computed here by the Standard Library's
    executable specification of binary floating point.  An [int] operand of
    a mixed operation is first converted, rounding to nearest even. *)

Module Binary64.

Definition prec : Z := 53.
Definition emax : Z := 1024.

Inductive num :=
  | Int (z : Z)
  | Float (f : spec_float).

(** [float(z)]; [OverflowError] when [z] is too large. *)
Definition float_of_int (z : Z) : option spec_float :=
  match binary_normalize prec emax z 0 false with
  | S754_infinity _ => None
  | f => Some f
  end.

Definition to_float (x : num) : option spec_float :=
  match x with
  | Int z => float_of_int z
  | Float f => Some f
  end.

Definition float_op (op : spec_float → spec_float → spec_float)
    (x y : num) : option num :=
  a ← to_float x; b ← to_float y; Some (Float (op a b)).

Definition add (x y : num) : option num :=
  match x, y with
  | Int a, Int b => Some (Int (a + b))
  | _, _ => float_op (SFadd prec emax) x y
  end.

Definition sub (x y : num) : option num :=
  match x, y with
  | Int a, Int b => Some (Int (a - b))
  | _, _ => float_op (SFsub prec emax) x y
  end.

Definition mul (x y : num) : option num :=
  match x, y with
  | Int a, Int b => Some (Int (a * b))
  | _, _ => float_op (SFmul prec emax) x y
  end.

(** [a / b] on two [int]s: the quotient rounded once.  The quotient of the
    magnitudes is taken with at least 60 bits and one more that records a
    remainder, which is enough for rounding to nearest even. *)
Definition int_truediv (a b : Z) : option num :=
  if decide (b = 0) then None
  else
    let negative := xorb (a <? 0) (b <? 0) in
    let shift := Z.max 0 (60 + Z.log2 (Z.abs b) - Z.log2 (Z.abs a)) in
    let scaled := Z.shiftl (Z.abs a) shift in
    let q := scaled / Z.abs b in
    let sticky := if decide (scaled mod Z.abs b = 0) then 0 else 1 in
    let m := 2 * q + sticky in
    match binary_normalize prec emax (if negative then - m else m)
            (- shift - 1) negative with
    | S754_infinity _ => None
    | f => Some (Float f)
    end.

Definition is_zero (f : spec_float) : bool :=
  match f with S754_zero _ => true | _ => false end.

Definition truediv (x y : num) : option num :=
  match x, y with
  | Int a, Int b => int_truediv a b
  | _, _ =>
      a ← to_float x; b ← to_float y;
      if is_zero b then None else Some (Float (SFdiv prec emax a b))
  end.

(** [math.sqrt]: [ValueError] below zero. *)
Definition sqrt (x : num) : option num :=
  f ← to_float x;
  match f with
  | S754_infinity true | S754_finite true _ _ => None
  | _ => Some (Float (SFsqrt prec emax f))
  end.

(** [math.floor]: an [int] is returned as it is; [OverflowError] on an
    infinity and [ValueError] on a NaN. *)
Definition floor (x : num) : option Z :=
  match x with
  | Int z => Some z
  | Float (S754_zero _) => Some 0
  | Float (S754_finite s m e) =>
      let v := if s then Z.neg m else Z.pos m in
      Some (if decide (0 ≤ e) then Z.shiftl v e else v / 2 ^ (- e))
  | Float _ => None
  end.

#[export] Instance arith : PyArith num := {
  of_int := Int;
  py_add := add;
  py_sub := sub;
  py_mul := mul;
  py_truediv := truediv;
  math_sqrt := sqrt;
  math_floor := floor
}.

(** The float literal [n / 10 ** k], for [0 <= n]. *)
Definition decimal (n : Z) (k : Z) : num :=
  default (Int 0) (int_truediv n (10 ^ k)).

End Binary64.

(** ** Example data *)

(** The comparison a dataclass generates for [Pool]: field by field. *)
#[export] Instance Pool_eq_dec `{EqDecision num} : EqDecision (Pool num).
Proof. solve_decision. Defined.

Definition dataclass_eq `{EqDecision num} (p q : Pool num) : bool :=
  bool_decide (p = q).

Module Example.
Import Binary64.

#[export] Instance spec_float_eq_dec : EqDecision spec_float.
Proof. solve_decision. Defined.

#[export] Instance num_eq_dec : EqDecision num.
Proof. solve_decision. Defined.

(** A pool with a 0.3% fee taken from the input. *)
Definition pool (token1 token2 : string) (reserves_in reserves_out : Z)
    : Pool num :=
  {| token1_denom := token1; token2_denom := token2;
     input_reserves := reserves_in; output_reserves := reserves_out;
     lp_fee := decimal 3 3; protocol_fee := decimal 0 0;
     fee_from_input := true;
     pool_amount_in := 0; pool_amount_out := 0 |}.

(** Pools A/B, B/C and C/A at locations 0, 1 and 2, and pools C/D and D/A
    at locations 3 and 4. *)
Definition store : heap num := λ l,
  match l with
  | 0%nat => pool "A" "B" 1000000 2100000
  | 1%nat => pool "C" "B" 2000000 3000000
  | 2%nat => pool "C" "A" 3000000 1000000
  | 3%nat => pool "C" "D" 500000 500000
  | _ => pool "D" "A" 400000 400000
  end.

Definition contracts : gmap string loc :=
  <["juno1ab" := 0%nat]> (<["juno1bc" := 1%nat]> (<["juno1ca" := 2%nat]>
  (<["juno1cd" := 3%nat]> (<["juno1da" := 4%nat]> ∅)))).

(** The cycle A -> B -> C -> A. *)
Definition route3 : Route :=
  {| pools := [0; 1; 2]%nat; profit := 0; optimal_amount_in := 0;
     amount_in := 0 |}.

(** The cycle A -> B -> C -> D -> A. *)
Definition route4 : Route :=
  {| pools := [0; 1; 3; 4]%nat; profit := 0; optimal_amount_in := 0;
     amount_in := 0 |}.

Definition swap_on (address denom : string) : Swap :=
  {| contract_address := address; output_denom := denom |}.

(** [calculate_swap] without fees, to run the simulation on examples: the
    constant-product formula [out = in * r_out / (r_in + in)], rounded
    down, with the reserves after the trade. *)
Definition fee_free_swap (reserves_in reserves_out amount_in : Z)
    (lp_fee protocol_fee : num) (fee_from_input : bool) : Z * Z * Z :=
  let out := amount_in * reserves_out / (reserves_in + amount_in) in
  (out, reserves_in + amount_in, reserves_out - out).

(** The three-pool route about to trade 1000 of A. *)
Definition route3_funded : Route := set_amount_in 1000 route3.

(** A route that goes through the pool A/B twice: the same object is its
    first and its last pool. *)
Definition route_twice : Route :=
  {| pools := [0; 1; 1; 0]%nat; profit := 0; optimal_amount_in := 0;
     amount_in := 1000 |}.

(** [n] distinct transaction identifiers. *)
Definition tx_ids (n : nat) : list string :=
  (λ i, "tx" +:+ pretty i) <$> seq 0 n.

(** A cache that holds 200 identifiers. *)
Definition seen200 : gset string := list_to_set (tx_ids 200).

(** A cache that holds 201 identifiers. *)
Definition seen201 : gset string := {["new"]} ∪ seen200.

(** Two pools that trade A and B against each other, and the cycle
    A -> B -> A through them. *)
Definition store2 : heap num := λ l,
  match l with
  | 0%nat => pool "A" "B" 1000000 2100000
  | _ => pool "B" "A" 2000000 1000000
  end.

Definition contracts2 : gmap string loc :=
  <["juno1ab" := 0%nat]> (<["juno1ba" := 1%nat]> ∅).

Definition route2 : Route :=
  {| pools := [0; 1]%nat; profit := 0; optimal_amount_in := 0;
     amount_in := 0 |}.

End Example.

(** * Properties *)

(** ** Ordering a route *)

Section OrderFacts.

Context {num : Type} (Pool_eq : Pool num → Pool num → bool).
Implicit Types (h : heap num) (self : Route) (swap : Swap) (l : list loc).

Lemma pools_reverse_involutive self : pools_reverse (pools_reverse self) = self.
Proof.
  destruct self as [l ? ? ?]. unfold pools_reverse, set_pools. simpl.
  by rewrite reverse_involutive.
Qed.

Lemma list_index_lt h x l k :
  list_index Pool_eq h x l = Some k → (k < length l)%nat.
Proof.
  revert k. induction l as [|y l IH]; intros k; simpl; [done|].
  destruct (bool_decide (y = x) || Pool_eq (h y) (h x)).
  - intros [= <-]. lia.
  - destruct (list_index Pool_eq h x l) as [j|]; simpl; [|done].
    intros [= <-]. specialize (IH j eq_refl). lia.
Qed.

Lemma list_index_match h x l k :
  list_index Pool_eq h x l = Some k →
  ∃ y, l !! k = Some y ∧ (y = x ∨ Pool_eq (h y) (h x) = true).
Proof.
  revert k. induction l as [|y l IH]; intros k; simpl; [done|].
  destruct (bool_decide (y = x) || Pool_eq (h y) (h x)) eqn:E.
  - intros [= <-]. exists y. split; [done|].
    apply orb_true_iff in E as [E|E]; [left|by right].
    by apply bool_decide_eq_true in E.
  - destruct (list_index Pool_eq h x l) as [j|]; simpl; [|done].
    intros [= <-]. exact (IH j eq_refl).
Qed.

Lemma list_index_elem h x l :
  x ∈ l → is_Some (list_index Pool_eq h x l).
Proof.
  induction 1 as [x l|x y l _ IH]; simpl.
  - rewrite bool_decide_eq_true_2 by done. eauto.
  - destruct (bool_decide (y = x) || Pool_eq (h y) (h x)); [eauto|].
    destruct IH as [j ->]. simpl. eauto.
Qed.

(** The second-pool case never raises once position 1 was found. *)
Lemma _order_second_pool_Some h input_denom arb_denom self :
  (1 < length (pools self))%nat →
  ∃ self', _order_second_pool h input_denom arb_denom self = Some self'
           ∧ (self' = self ∨ self' = pools_reverse self).
Proof.
  intros Hlen. unfold _order_second_pool.
  destruct (pools self !! 0%nat) as [first_pool|] eqn:E; simpl.
  - destruct (decide (input_denom ≠ _)); eauto.
  - apply lookup_ge_None in E. lia.
Qed.

(** What [order_pools] returns, by the position found. *)
Lemma order_pools_position h contracts swap arb_denom self target :
  contracts !! contract_address swap = Some target →
  target ∈ pools self →
  ∃ k self',
    list_index Pool_eq h target (pools self) = Some k
    ∧ order_pools Pool_eq h contracts swap arb_denom self = Some self'
    ∧ (self' = self ∨ self' = pools_reverse self)
    ∧ ((3 ≤ k)%nat → self' = self).
Proof.
  intros Hc Hin. unfold order_pools. rewrite Hc. simpl.
  destruct (list_index_elem h target (pools self) Hin) as [k Hk].
  rewrite Hk. simpl. pose proof (list_index_lt _ _ _ _ Hk) as Hlt.
  destruct k as [|[|[|k]]].
  - eexists _, _. split_and!; [done|done| |lia].
    unfold _order_first_pool. destruct (decide _); eauto.
  - destruct (_order_second_pool_Some h (output_denom swap) arb_denom self Hlt)
      as (self' & -> & Hor).
    eexists _, _. split_and!; [done|done|done|lia].
  - eexists _, _. split_and!; [done|done| |lia].
    unfold _order_last_pool. destruct (decide _); eauto.
  - eexists _, _. split_and!; [done|done|by left|done].
Qed.

(** C10. For every route and every swap whose target pool is in the route,
    [order_pools] returns normally, and the route it leaves has either the
    very same pool sequence or its exact reversal (the other fields are
    untouched), so the pools are the same up to order; when the position
    found for the swapped pool is 3 or more, the route is unchanged. *)
Theorem order_pools_same_or_reversed h contracts swap arb_denom self target :
  contracts !! contract_address swap = Some target →
  target ∈ pools self →
  ∃ self',
    order_pools Pool_eq h contracts swap arb_denom self = Some self'
    ∧ (self' = self ∨ self' = pools_reverse self)
    ∧ (pools self' = pools self ∨ pools self' = reverse (pools self))
    ∧ pools self' ≡ₚ pools self
    ∧ (∀ k, list_index Pool_eq h target (pools self) = Some k →
            (3 ≤ k)%nat → pools self' = pools self).
Proof.
  intros Hc Hin.
  destruct (order_pools_position h contracts swap arb_denom self target Hc Hin)
    as (k & self' & Hk & Ho & Hor & Hge).
  exists self'. split_and!; [done|done| | |].
  - destruct Hor as [-> | ->]; [by left|by right].
  - destruct Hor as [-> | ->]; [done|]. simpl. apply reverse_Permutation.
  - intros k' Hk' Hle. rewrite Hk in Hk'. injection Hk' as <-.
    by rewrite (Hge Hle).
Qed.

(** [order_pools] by position, with each test spelled out. *)
Lemma order_pools_by_position h contracts swap arb_denom self target k :
  contracts !! contract_address swap = Some target →
  list_index Pool_eq h target (pools self) = Some k →
  match k with
  | 0%nat =>
      order_pools Pool_eq h contracts swap arb_denom self
      = Some (if decide (output_denom swap ≠ arb_denom)
              then pools_reverse self else self)
  | 1%nat =>
      ∃ first_pool,
        pools self !! 0%nat = Some first_pool
        ∧ let outward :=
            if decide (token1_denom (h first_pool) = arb_denom)
            then token2_denom (h first_pool)
            else token1_denom (h first_pool) in
          order_pools Pool_eq h contracts swap arb_denom self
          = Some (if decide (output_denom swap ≠ outward)
                  then pools_reverse self else self)
  | 2%nat =>
      order_pools Pool_eq h contracts swap arb_denom self
      = Some (if decide (output_denom swap = arb_denom)
              then pools_reverse self else self)
  | _ => order_pools Pool_eq h contracts swap arb_denom self = Some self
  end.
Proof.
  intros Hc Hk. pose proof (list_index_lt _ _ _ _ Hk) as Hlt.
  unfold order_pools. rewrite Hc. simpl. rewrite Hk. simpl.
  destruct k as [|[|[|k]]]; [done| |done|done].
  unfold _order_second_pool.
  destruct (pools self !! 0%nat) as [first_pool|] eqn:E; simpl.
  - exists first_pool. split; [done|]. simpl.
    destruct (decide (token1_denom (h first_pool) ≠ arb_denom)),
      (decide (token1_denom (h first_pool) = arb_denom)); done.
  - apply lookup_ge_None in E. lia.
Qed.

(** C4, amended. With the swapped pool found at position 0, [order_pools]
    reverses the pool sequence when [swap.output_denom != arb_denom] and
    leaves it otherwise; at position 1 it takes the first pool's outward
    denom ([token2_denom] if [token1_denom == arb_denom], else
    [token1_denom]) and reverses when [swap.output_denom] differs from it,
    leaving the sequence otherwise; at position 2, which is the last
    position of a three-pool route, it reverses when
    [swap.output_denom == arb_denom] and leaves the sequence otherwise.  On
    a route of exactly three pools this is the rule as specified. *)
Theorem order_pools_reversal_rule h contracts swap arb_denom self target k :
  contracts !! contract_address swap = Some target →
  list_index Pool_eq h target (pools self) = Some k →
  (k = 0%nat →
     order_pools Pool_eq h contracts swap arb_denom self
     = Some (if decide (output_denom swap ≠ arb_denom)
             then pools_reverse self else self))
  ∧ (k = 1%nat →
     ∃ first_pool,
       pools self !! 0%nat = Some first_pool
       ∧ order_pools Pool_eq h contracts swap arb_denom self
         = Some (if decide (output_denom swap ≠
                            (if decide (token1_denom (h first_pool) = arb_denom)
                             then token2_denom (h first_pool)
                             else token1_denom (h first_pool)))
                 then pools_reverse self else self))
  ∧ (k = 2%nat →
     order_pools Pool_eq h contracts swap arb_denom self
     = Some (if decide (output_denom swap = arb_denom)
             then pools_reverse self else self))
  ∧ (length (pools self) = 3%nat →
     ∃ b, reverses_as_specified h swap arb_denom self k = Some b
          ∧ order_pools Pool_eq h contracts swap arb_denom self
            = Some (if b then pools_reverse self else self)).
Proof.
  intros Hc Hk.
  pose proof (order_pools_by_position h contracts swap arb_denom self target k
                Hc Hk) as Hpos.
  pose proof (list_index_lt _ _ _ _ Hk) as Hlt.
  split_and!.
  - by intros ->.
  - by intros ->.
  - by intros ->.
  - intros Hlen. destruct k as [|[|[|k]]]; [| | |lia].
    + eexists. split; [done|]. rewrite Hpos. case_bool_decide;
        destruct (decide (output_denom swap ≠ arb_denom)); done.
    + destruct Hpos as (first_pool & Hf & Hpos). simpl in Hpos.
      unfold reverses_as_specified. rewrite Hf. simpl.
      eexists. split; [done|]. rewrite Hpos.
      case_bool_decide; destruct (decide (output_denom swap ≠ _)); done.
    + unfold reverses_as_specified. rewrite Hlen.
      rewrite decide_True by done.
      eexists. split; [done|]. rewrite Hpos. case_bool_decide;
        destruct (decide (output_denom swap = arb_denom)); done.
Qed.

(** C9. When a first swap makes [order_pools] reverse the pool sequence of a
    route, and a second swap makes [order_pools] reverse the sequence it
    then finds, the two calls in a row give the route back as it was. *)
Theorem order_pools_twice_reversed h contracts swap1 swap2 arb_denom self :
  order_pools Pool_eq h contracts swap1 arb_denom self
  = Some (pools_reverse self) →
  order_pools Pool_eq h contracts swap2 arb_denom (pools_reverse self)
  = Some (pools_reverse (pools_reverse self)) →
  ∃ self2,
    order_pools Pool_eq h contracts swap1 arb_denom self
    ≫= order_pools Pool_eq h contracts swap2 arb_denom = Some self2
    ∧ self2 = self ∧ pools self2 = pools self.
Proof.
  intros H1 H2. exists self. rewrite H1. simpl. rewrite H2.
  by rewrite pools_reverse_involutive.
Qed.

(** *** Denom cycles under reversal *)

Lemma other_denom_sym (p : Pool num) d e :
  other_denom p d = Some e → other_denom p e = Some d.
Proof.
  unfold other_denom. intros H.
  repeat case_decide; simplify_eq; congruence.
Qed.

Lemma denom_after_app h d l1 l2 :
  denom_after h d (l1 ++ l2) = denom_after h d l1 ≫= λ d', denom_after h d' l2.
Proof.
  revert d. induction l1 as [|p l1 IH]; intros d; simpl; [done|].
  destruct (other_denom (h p) d) as [d'|]; simpl; [apply IH|done].
Qed.

Lemma denom_after_reverse h d e l :
  denom_after h d l = Some e → denom_after h e (reverse l) = Some d.
Proof.
  revert d. induction l as [|p l IH]; intros d; simpl.
  - by intros [= ->].
  - destruct (other_denom (h p) d) as [d'|] eqn:E; simpl; [|done].
    intros H. rewrite reverse_cons, denom_after_app, (IH _ H). simpl.
    by rewrite (other_denom_sym _ _ _ E).
Qed.

Lemma denom_cycle_reverse h arb_denom l :
  denom_cycle h arb_denom l → denom_cycle h arb_denom (reverse l).
Proof. apply denom_after_reverse. Qed.

Lemma other_denom_tokens (p : Pool num) d e :
  other_denom p d = Some e →
  (token1_denom p = d ∧ token2_denom p = e)
  ∨ (token1_denom p = e ∧ token2_denom p = d).
Proof.
  unfold other_denom. repeat case_decide; intros; simplify_eq; eauto.
Qed.

Lemma other_denom_is_Some (p : Pool num) d :
  is_Some (other_denom p d) → d = token1_denom p ∨ d = token2_denom p.
Proof.
  unfold other_denom. intros [e He].
  repeat case_decide; simplify_eq; eauto.
Qed.

(** *** Running counter to the swap *)

(** On a three-pool cycle, whatever its denoms, the pool found for the swap
    is fed, in the route that [order_pools] leaves, the denom the swap pays
    out, when that denom is one of the pool's two. *)
Lemma order_pools_feeds_found_pool h contracts swap arb_denom self target
    p0 p1 p2 d1 d2 k pk :
  pools self = [p0; p1; p2] →
  other_denom (h p0) arb_denom = Some d1 →
  other_denom (h p1) d1 = Some d2 →
  other_denom (h p2) d2 = Some arb_denom →
  contracts !! contract_address swap = Some target →
  list_index Pool_eq h target (pools self) = Some k →
  pools self !! k = Some pk →
  is_Some (other_denom (h pk) (output_denom swap)) →
  ∃ self' k',
    order_pools Pool_eq h contracts swap arb_denom self = Some self'
    ∧ pools self' !! k' = Some pk
    ∧ denom_after h arb_denom (take k' (pools self'))
      = Some (output_denom swap).
Proof.
  intros Hp H0 H1 H2 Hc Hk Hpk Hd.
  pose proof (order_pools_by_position h contracts swap arb_denom self target k
                Hc Hk) as Hpos.
  pose proof (other_denom_sym _ _ _ H0) as H0'.
  pose proof (other_denom_sym _ _ _ H1) as H1'.
  pose proof (other_denom_sym _ _ _ H2) as H2'.
  apply other_denom_is_Some in Hd.
  rewrite Hp in Hpk, Hpos.
  destruct k as [|[|[|k]]]; simpl in Hpk;
    [| | |by rewrite lookup_nil in Hpk].
  - (* the first pool *)
    assert (pk = p0) as -> by congruence.
    rewrite Hpos. destruct (decide (output_denom swap ≠ arb_denom)) as [Hne|He].
    + exists (pools_reverse self), 2%nat. simpl. rewrite Hp.
      split_and!; [done|done|]. simpl. rewrite H2'. simpl. rewrite H1'. simpl.
      apply other_denom_tokens in H0. f_equal.
      destruct H0 as [[? ?]|[? ?]], Hd; congruence.
    + exists self, 0%nat. rewrite Hp. split_and!; [done|done|].
      simpl. f_equal. by destruct (decide (output_denom swap = arb_denom)).
  - (* the middle pool *)
    assert (pk = p1) as -> by congruence.
    destruct Hpos as (first_pool & [= <-] & Hpos). simpl in Hpos. rewrite Hpos.
    assert ((if decide (token1_denom (h p0) = arb_denom)
             then token2_denom (h p0) else token1_denom (h p0)) = d1) as ->.
    { apply other_denom_tokens in H0.
      destruct (decide (token1_denom (h p0) = arb_denom));
        destruct H0 as [[? ?]|[? ?]]; congruence. }
    destruct (decide (output_denom swap ≠ d1)) as [Hne|He].
    + exists (pools_reverse self), 1%nat. simpl. rewrite Hp.
      split_and!; [done|done|]. simpl. rewrite H2'. simpl.
      apply other_denom_tokens in H1. f_equal.
      destruct H1 as [[? ?]|[? ?]], Hd; congruence.
    + exists self, 1%nat. rewrite Hp. split_and!; [done|done|].
      simpl. rewrite H0. simpl. f_equal.
      by destruct (decide (output_denom swap = d1)).
  - (* the last pool *)
    assert (pk = p2) as -> by congruence.
    rewrite Hpos. destruct (decide (output_denom swap = arb_denom)) as [He|Hne].
    + exists (pools_reverse self), 0%nat. simpl. rewrite Hp.
      split_and!; [done|done|]. simpl. by rewrite He.
    + exists self, 2%nat. rewrite Hp. split_and!; [done|done|].
      simpl. rewrite H0. simpl. rewrite H1. simpl.
      apply other_denom_tokens in H2. f_equal.
      destruct H2 as [[? ?]|[? ?]], Hd; congruence.
Qed.

(** C1. For a route of exactly three pools that is a denom cycle through
    [arb_denom] and a swap that targets one of its pools, [order_pools]
    returns normally and leaves three pools such that [arb_denom] enters
    pool 0, what each pool pays out enters the next, and the last pool pays
    out [arb_denom]; and the direction is the one set by the swap: the pool
    found for the swap (the target, or a pool of the route equal to it) is
    fed, in the route left, the denom the swap pays out, that denom being
    one of the pool's two. *)
Theorem order_pools_three_pool_cycle h contracts swap arb_denom self target
    p0 p1 p2 :
  pools self = [p0; p1; p2] →
  denom_cycle h arb_denom (pools self) →
  contracts !! contract_address swap = Some target →
  target ∈ pools self →
  ∃ self' q0 q1 q2 d1 d2,
    order_pools Pool_eq h contracts swap arb_denom self = Some self'
    ∧ pools self' = [q0; q1; q2]
    ∧ other_denom (h q0) arb_denom = Some d1
    ∧ other_denom (h q1) d1 = Some d2
    ∧ other_denom (h q2) d2 = Some arb_denom
    ∧ denom_cycle h arb_denom (pools self')
    ∧ ∃ k pk,
        list_index Pool_eq h target (pools self) = Some k
        ∧ pools self !! k = Some pk
        ∧ (pk = target ∨ Pool_eq (h pk) (h target) = true)
        ∧ (is_Some (other_denom (h pk) (output_denom swap)) →
           ∃ k',
             pools self' !! k' = Some pk
             ∧ denom_after h arb_denom (take k' (pools self'))
               = Some (output_denom swap)).
Proof.
  intros Hp Hcyc Hc Hin.
  destruct (order_pools_position h contracts swap arb_denom self target Hc Hin)
    as (k & self' & Hk & Ho & Hor & _).
  assert (denom_cycle h arb_denom (pools self')) as Hcyc'.
  { destruct Hor as [-> | ->]; [done|]. by apply denom_cycle_reverse. }
  assert (∃ q0 q1 q2, pools self' = [q0; q1; q2]) as (q0 & q1 & q2 & Hq).
  { destruct Hor as [-> | ->]; simpl; rewrite Hp; eauto. }
  pose proof Hcyc' as Hchain. unfold denom_cycle in Hchain.
  rewrite Hq in Hchain. simpl in Hchain.
  destruct (other_denom (h q0) arb_denom) as [d1|] eqn:E0; simpl in Hchain;
    [|done].
  destruct (other_denom (h q1) d1) as [d2|] eqn:E1; simpl in Hchain; [|done].
  destruct (other_denom (h q2) d2) as [d3|] eqn:E2; simpl in Hchain; [|done].
  injection Hchain as ->.
  exists self', q0, q1, q2, d1, d2. split_and!; try done.
  destruct (list_index_match _ _ _ _ Hk) as (pk & Hpk & Hm).
  exists k, pk. split_and!; try done.
  intros Hd. pose proof Hcyc as Hin0. unfold denom_cycle in Hin0.
  rewrite Hp in Hin0. simpl in Hin0.
  destruct (other_denom (h p0) arb_denom) as [e1|] eqn:F0; simpl in Hin0;
    [|done].
  destruct (other_denom (h p1) e1) as [e2|] eqn:F1; simpl in Hin0; [|done].
  destruct (other_denom (h p2) e2) as [e3|] eqn:F2; simpl in Hin0; [|done].
  injection Hin0 as ->.
  destruct (order_pools_feeds_found_pool h contracts swap arb_denom self target
              p0 p1 p2 e1 e2 k pk Hp F0 F1 F2 Hc Hk Hpk Hd)
    as (self'' & k' & Ho' & Hk' & Hfed).
  assert (self'' = self') as -> by congruence.
  by exists k'.
Qed.

(** X1. On a three-pool cycle through three different denoms, when the swap
    pays out one of the two denoms of the pool found for it, the route that
    [order_pools] leaves feeds that pool the very denom the swap pays out:
    the route trades against the swap. *)
Theorem order_pools_counter_direction h contracts swap arb_denom self target
    p0 p1 p2 d1 d2 k pk :
  pools self = [p0; p1; p2] →
  other_denom (h p0) arb_denom = Some d1 →
  other_denom (h p1) d1 = Some d2 →
  other_denom (h p2) d2 = Some arb_denom →
  arb_denom ≠ d1 → d1 ≠ d2 → d2 ≠ arb_denom →
  contracts !! contract_address swap = Some target →
  list_index Pool_eq h target (pools self) = Some k →
  pools self !! k = Some pk →
  is_Some (other_denom (h pk) (output_denom swap)) →
  ∃ self' k',
    order_pools Pool_eq h contracts swap arb_denom self = Some self'
    ∧ pools self' !! k' = Some pk
    ∧ denom_after h arb_denom (take k' (pools self'))
      = Some (output_denom swap).
Proof.
  intros Hp H0 H1 H2 Hn1 Hn2 Hn3 Hc Hk Hpk Hd.
  pose proof (order_pools_by_position h contracts swap arb_denom self target k
                Hc Hk) as Hpos.
  pose proof (other_denom_sym _ _ _ H0) as H0'.
  pose proof (other_denom_sym _ _ _ H1) as H1'.
  pose proof (other_denom_sym _ _ _ H2) as H2'.
  apply other_denom_is_Some in Hd.
  rewrite Hp in Hpk, Hpos.
  destruct k as [|[|[|k]]]; simpl in Hpk;
    [| | |by rewrite lookup_nil in Hpk].
  - (* the first pool *)
    assert (pk = p0) as -> by congruence.
    rewrite Hpos. destruct (decide (output_denom swap ≠ arb_denom)) as [Hne|He].
    + exists (pools_reverse self), 2%nat. simpl. rewrite Hp.
      split_and!; [done|done|]. simpl. rewrite H2'. simpl. rewrite H1'. simpl.
      apply other_denom_tokens in H0. f_equal. destruct H0, Hd; naive_solver.
    + exists self, 0%nat. rewrite Hp. split_and!; [done|done|].
      simpl. f_equal. by destruct (decide (output_denom swap = arb_denom)).
  - (* the middle pool *)
    assert (pk = p1) as -> by congruence.
    destruct Hpos as (first_pool & [= <-] & Hpos). simpl in Hpos. rewrite Hpos.
    assert ((if decide (token1_denom (h p0) = arb_denom)
             then token2_denom (h p0) else token1_denom (h p0)) = d1) as ->.
    { apply other_denom_tokens in H0.
      destruct (decide (token1_denom (h p0) = arb_denom));
        destruct H0 as [[? ?]|[? ?]]; congruence. }
    destruct (decide (output_denom swap ≠ d1)) as [Hne|He].
    + exists (pools_reverse self), 1%nat. simpl. rewrite Hp.
      split_and!; [done|done|]. simpl. rewrite H2'. simpl.
      apply other_denom_tokens in H1. f_equal. destruct H1, Hd; naive_solver.
    + exists self, 1%nat. rewrite Hp. split_and!; [done|done|].
      simpl. rewrite H0. simpl. f_equal.
      by destruct (decide (output_denom swap = d1)).
  - (* the last pool *)
    assert (pk = p2) as -> by congruence.
    rewrite Hpos. destruct (decide (output_denom swap = arb_denom)) as [He|Hne].
    + exists (pools_reverse self), 0%nat. simpl. rewrite Hp.
      split_and!; [done|done|]. simpl. by rewrite He.
    + exists self, 2%nat. rewrite Hp. split_and!; [done|done|].
      simpl. rewrite H0. simpl. rewrite H1. simpl.
      apply other_denom_tokens in H2. f_equal. destruct H2, Hd; naive_solver.
Qed.

End OrderFacts.

(** *** On the example routes *)

Section OrderExamples.

Import Binary64 Example.

(** The pool B/C of the three-pool route is swapped against, paying out C:
    the route is reversed. *)
Example order_pools_route3_bc :
  order_pools dataclass_eq store contracts (swap_on "juno1bc" "C") "A" route3
  = Some (pools_reverse route3).
Proof. vm_compute. reflexivity. Qed.

Lemma order_pools_same_or_reversed_witness :
  ∃ self',
    order_pools dataclass_eq store contracts (swap_on "juno1bc" "C") "A" route3
    = Some self'
    ∧ (self' = route3 ∨ self' = pools_reverse route3)
    ∧ (pools self' = pools route3 ∨ pools self' = reverse (pools route3))
    ∧ pools self' ≡ₚ pools route3
    ∧ (∀ k, list_index dataclass_eq store 1%nat (pools route3) = Some k →
            (3 ≤ k)%nat → pools self' = pools route3).
Proof.
  apply (order_pools_same_or_reversed dataclass_eq store contracts
           (swap_on "juno1bc" "C") "A" route3 1%nat).
  - vm_compute. reflexivity.
  - simpl. repeat constructor.
Defined.

Lemma order_pools_reversal_rule_witness :
  order_pools dataclass_eq store contracts (swap_on "juno1ca" "A") "A" route3
  = Some (pools_reverse route3).
Proof.
  pose proof (order_pools_reversal_rule dataclass_eq store contracts
                (swap_on "juno1ca" "A") "A" route3 2%nat 2%nat) as H.
  destruct H as (_ & _ & H & _).
  - vm_compute. reflexivity.
  - vm_compute. reflexivity.
  - rewrite (H eq_refl). reflexivity.
Defined.

(** C4, as stated, fails on a longer route: in the four-pool route the pool
    D/A sits at the last position, 3, and the swap pays out [arb_denom], yet
    the pool sequence is not reversed. *)
Lemma order_pools_last_of_four_pools :
  list_index dataclass_eq store 4%nat (pools route4) = Some 3%nat
  ∧ S 3 = length (pools route4)
  ∧ output_denom (swap_on "juno1da" "A") = "A"
  ∧ reverses_as_specified store (swap_on "juno1da" "A") "A" route4 3
    = Some true
  ∧ order_pools dataclass_eq store contracts (swap_on "juno1da" "A") "A" route4
    = Some route4
  ∧ order_pools dataclass_eq store contracts (swap_on "juno1da" "A") "A" route4
    ≠ Some (pools_reverse route4).
Proof.
  split_and!; try (vm_compute; reflexivity).
  vm_compute. discriminate.
Qed.

Lemma order_pools_twice_reversed_witness :
  ∃ self2,
    order_pools dataclass_eq store contracts (swap_on "juno1bc" "C") "A" route3
    ≫= order_pools dataclass_eq store contracts (swap_on "juno1ca" "C") "A"
    = Some self2
    ∧ self2 = route3 ∧ pools self2 = pools route3.
Proof.
  apply (order_pools_twice_reversed dataclass_eq store contracts
           (swap_on "juno1bc" "C") (swap_on "juno1ca" "C") "A" route3).
  - vm_compute. reflexivity.
  - vm_compute. reflexivity.
Defined.

Lemma order_pools_three_pool_cycle_witness :
  ∃ self' k',
    order_pools dataclass_eq store contracts (swap_on "juno1bc" "C") "A" route3
    = Some self'
    ∧ denom_cycle store "A" (pools self')
    ∧ pools self' !! k' = Some 1%nat
    ∧ denom_after store "A" (take k' (pools self')) = Some "C".
Proof.
  destruct (order_pools_three_pool_cycle dataclass_eq store contracts
              (swap_on "juno1bc" "C") "A" route3 1%nat 0%nat 1%nat 2%nat)
    as (self' & q0 & q1 & q2 & d1 & d2 & Ho & _ & _ & _ & _ & Hcyc
        & k & pk & Hk & Hpk & _ & Hfed).
  - reflexivity.
  - vm_compute. reflexivity.
  - vm_compute. reflexivity.
  - simpl. repeat constructor.
  - assert (k = 1%nat) as -> by (vm_compute in Hk; congruence).
    assert (pk = 1%nat) as -> by (vm_compute in Hpk; congruence).
    destruct Hfed as (k' & Hk' & Hd); [vm_compute; eauto|].
    by exists self', k'.
Defined.

End OrderExamples.

(** ** Sizing against the balance *)

(** C5. [calculate_and_set_amount_in] leaves the route as it is (so
    [amount_in] stays at its default 0) when [optimal_amount_in <= 0];
    otherwise it sets [amount_in] to [account_balance - gas_fee] when
    [optimal_amount_in] exceeds that difference, negative or not, and to
    [optimal_amount_in] when it does not; no other field changes.  With
    optimal 1000, balance 500 and gas 100 the amount is 400; with optimal -5
    it stays 0; with optimal 50, balance 1000 and gas 10 it is 50. *)
Theorem calculate_and_set_amount_in_policy :
  (∀ account_balance gas_fee self,
     let self' := calculate_and_set_amount_in account_balance gas_fee self in
     (optimal_amount_in self ≤ 0 → self' = self)
     ∧ (0 < optimal_amount_in self →
        optimal_amount_in self > account_balance - gas_fee →
        amount_in self' = account_balance - gas_fee)
     ∧ (0 < optimal_amount_in self →
        optimal_amount_in self ≤ account_balance - gas_fee →
        amount_in self' = optimal_amount_in self)
     ∧ pools self' = pools self ∧ profit self' = profit self
     ∧ optimal_amount_in self' = optimal_amount_in self)
  ∧ (∀ l v,
       amount_in (calculate_and_set_amount_in 500 100
         {| pools := l; profit := v; optimal_amount_in := 1000;
            amount_in := 0 |}) = 400)
  ∧ (∀ l v account_balance gas_fee,
       amount_in (calculate_and_set_amount_in account_balance gas_fee
         {| pools := l; profit := v; optimal_amount_in := -5;
            amount_in := 0 |}) = 0)
  ∧ (∀ l v,
       amount_in (calculate_and_set_amount_in 1000 10
         {| pools := l; profit := v; optimal_amount_in := 50;
            amount_in := 0 |}) = 50).
Proof.
  split_and!; [|done..].
  intros account_balance gas_fee self. unfold calculate_and_set_amount_in.
  simpl. repeat case_decide; split_and!; intros; simpl; try done; lia.
Qed.

(** C8. With [gas_fee >= 0], a positive [optimal_amount_in] and [amount_in]
    at its default 0, the [amount_in] that [calculate_and_set_amount_in]
    leaves is at most [optimal_amount_in] and at most [account_balance]. *)
Theorem calculate_and_set_amount_in_bounded account_balance gas_fee self :
  0 ≤ gas_fee →
  0 < optimal_amount_in self →
  amount_in self = 0 →
  let self' := calculate_and_set_amount_in account_balance gas_fee self in
  amount_in self' ≤ optimal_amount_in self'
  ∧ amount_in self' ≤ account_balance.
Proof.
  intros Hgas Hopt Hdef. unfold calculate_and_set_amount_in.
  repeat case_decide; simpl; lia.
Qed.

Lemma calculate_and_set_amount_in_bounded_witness :
  let self :=
    {| pools := []; profit := 0; optimal_amount_in := 1000; amount_in := 0 |} in
  let self' := calculate_and_set_amount_in 500 100 self in
  amount_in self' ≤ optimal_amount_in self' ∧ amount_in self' ≤ 500.
Proof.
  apply (calculate_and_set_amount_in_bounded 500 100
           {| pools := []; profit := 0; optimal_amount_in := 1000;
              amount_in := 0 |}); simpl; lia.
Defined.

Lemma calculate_and_set_amount_in_policy_witness :
  amount_in (calculate_and_set_amount_in 10 30
    {| pools := []; profit := 0; optimal_amount_in := 7; amount_in := 0 |})
  = -20.
Proof.
  apply (proj1 calculate_and_set_amount_in_policy 10 30
           {| pools := []; profit := 0; optimal_amount_in := 7;
              amount_in := 0 |}); simpl; lia.
Defined.

(** ** The mempool watcher and its cache *)

Section Watcher.

Implicit Types (seen : gset string) (txs new : list string) (tx : string).

(** The loop over a batch: what it adds to the cache and to the result. *)
Lemma tx_loop_spec txs : ∀ seen new seen' new',
  foldl tx_body (seen, new) txs = (seen', new') →
  ∃ added,
    new' = new ++ added
    ∧ NoDup added
    ∧ (∀ tx, tx ∈ added ↔ tx ∈ txs ∧ tx ∉ seen)
    ∧ seen' = seen ∪ list_to_set added
    ∧ seen' = seen ∪ list_to_set txs
    ∧ size seen' = (size seen + length added)%nat.
Proof.
  induction txs as [|a txs IH]; intros seen new seen' new'; simpl.
  - intros [= <- <-]. exists []. rewrite app_nil_r. simpl.
    split_and!; [done|constructor|set_solver|set_solver|set_solver|lia].
  - destruct (decide (a ∈ seen)) as [Hin|Hnin]; intros Hloop.
    + destruct (IH _ _ _ _ Hloop) as (added & -> & Hnd & Hadd & Hs & Hs' & Hsz).
      exists added. split_and!; [done|done| |done| |done].
      * intros tx. rewrite Hadd. set_solver.
      * rewrite Hs'. set_solver.
    + destruct (IH _ _ _ _ Hloop) as (added & -> & Hnd & Hadd & Hs & Hs' & Hsz).
      exists (a :: added). split_and!.
      * by rewrite <- app_assoc.
      * constructor; [|done]. rewrite Hadd. set_solver.
      * intros tx. rewrite elem_of_cons, Hadd. set_solver.
      * rewrite Hs. set_solver.
      * rewrite Hs'. set_solver.
      * rewrite Hsz, size_union, size_singleton by set_solver. simpl. lia.
Qed.

(** A round that returns was given a batch, and returns what the loop over
    the batch collected from the cache as the batch found it. *)
Lemma poll_round_Some seen r seen' new :
  poll_round seen r = (seen', Some new) →
  ∃ txs, r = Txs txs
         ∧ foldl tx_body (cache_for_batch seen, []) txs = (seen', new)
         ∧ new ≠ [].
Proof.
  unfold poll_round, cache_for_batch.
  destruct r as [| | |txs]; try discriminate.
  destruct txs as [|tx txs]; [discriminate|].
  destruct (foldl tx_body _ (tx :: txs)) as [s n] eqn:E.
  destruct n as [|tx' n]; [discriminate|].
  intros [= <- <-]. eauto.
Qed.

Lemma tx_body_twice (s : gset string * list string) tx :
  tx_body (tx_body s tx) tx = tx_body s tx.
Proof.
  destruct s as [seen new]. simpl.
  destruct (decide (tx ∈ seen)) as [Hin|Hnin]; simpl.
  - rewrite decide_True by done. reflexivity.
  - rewrite decide_True by set_solver. reflexivity.
Qed.

(** A call that returns: the list it returns is not empty and has no
    repetition; it was collected in the round that got the batch [txs], from
    the cache as that batch found it. *)
Lemma query_node_returns_batch node seen new seen' :
  query_node_for_new_mempool_txs node seen = Some (new, seen') →
  new ≠ []
  ∧ NoDup new
  ∧ (∃ node1 txs node2,
       node = node1 ++ Txs txs :: node2
       ∧ query_node_for_new_mempool_txs node1 seen = None
       ∧ foldl tx_body (cache_for_batch (cache_after node1 seen), []) txs
         = (seen', new)
       ∧ (∀ tx, tx ∈ new →
            tx ∈ txs
            ∧ (tx ∉ cache_for_batch (cache_after node1 seen))
            ∧ tx ∈ seen')
       ∧ (∀ tx, tx ∈ cache_for_batch (cache_after node1 seen) → tx ∉ new)
       ∧ seen' = cache_for_batch (cache_after node1 seen) ∪ list_to_set new
       ∧ size seen'
         = (size (cache_for_batch (cache_after node1 seen)) + length new)%nat)
  ∧ (∀ s tx, tx_body (tx_body s tx) tx = tx_body s tx
             ∧ size (tx_body (tx_body s tx) tx).1 = size (tx_body s tx).1).
Proof.
  intros Hret.
  assert (∀ s tx, tx_body (tx_body s tx) tx = tx_body s tx
             ∧ size (tx_body (tx_body s tx) tx).1 = size (tx_body s tx).1)
    as Htwice.
  { intros s tx. by rewrite tx_body_twice. }
  revert seen Hret. induction node as [|r node IH]; intros seen; simpl;
    [done|].
  destruct (poll_round seen r) as [s1 [l|]] eqn:E.
  - intros [= -> ->].
    destruct (poll_round_Some _ _ _ _ E) as (txs & -> & Hloop & Hne).
    destruct (tx_loop_spec _ _ _ _ _ Hloop)
      as (added & Hnew & Hnd & Hadd & Hs & _ & Hsz).
    simpl in Hnew. subst added.
    split_and!; [done|done| |done].
    exists [], txs, node. simpl.
    split_and!; [done|done|done| | |done|done].
    + intros tx Htx. apply Hadd in Htx as [? ?].
      split_and!; [done|done|]. rewrite Hs. set_solver.
    + intros tx Hc Htx. apply Hadd in Htx as [? ?]. done.
  - intros Hret. destruct (IH _ Hret)
      as (Hne & Hnd & (node1 & txs & node2 & -> & Hnone & Hloop & H1 & H2
                       & H3 & H4) & _).
    split_and!; [done|done| |done].
    exists (r :: node1), txs, node2.
    replace (cache_after (r :: node1) seen) with (cache_after node1 s1)
      by (unfold cache_after; simpl; by rewrite E).
    split_and!; try done. simpl. by rewrite E.
Qed.

(** C6, amended. A round that starts with more than 200 cached identifiers
    empties the cache before it inserts anything: afterwards the cache holds
    exactly the identifiers of that round's batch, so one new identifier
    leaves a cache of size 1 that contains only it.  A round that starts
    with at most 200 identifiers empties nothing: a 201st distinct
    identifier joins the 200 cached ones. *)
Theorem poll_round_cache seen r :
  ((200 < size seen)%nat →
     (poll_round seen r).1
     = match r with Txs txs => list_to_set txs | _ => ∅ end
     ∧ ∀ tx, r = Txs [tx] →
         poll_round seen r = ({[tx]}, Some [tx])
         ∧ size (poll_round seen r).1 = 1%nat)
  ∧ ((size seen ≤ 200)%nat →
     (poll_round seen r).1
     = match r with Txs txs => seen ∪ list_to_set txs | _ => seen end
     ∧ ∀ tx, r = Txs [tx] → tx ∉ seen → size seen = 200%nat →
         poll_round seen r = ({[tx]} ∪ seen, Some [tx])
         ∧ size (poll_round seen r).1 = 201%nat).
Proof.
  split; intros Hsz.
  - split.
    + unfold poll_round. rewrite decide_True by done.
      destruct r as [| | |txs]; try done.
      destruct txs as [|tx txs]; [done|].
      destruct (foldl tx_body _ (tx :: txs)) as [s n] eqn:E.
      destruct (tx_loop_spec _ _ _ _ _ E) as (_ & _ & _ & _ & _ & -> & _).
      simpl. set_solver.
    + intros tx ->.
      assert (poll_round seen (Txs [tx]) = ({[tx]}, Some [tx])) as ->.
      { unfold poll_round. rewrite decide_True by done.
        simpl. rewrite decide_False by set_solver. simpl.
        by rewrite (right_id_L ∅ (∪)). }
      split; [done|apply size_singleton].
  - split.
    + unfold poll_round. rewrite decide_False by lia.
      destruct r as [| | |txs]; try done.
      destruct txs as [|tx txs]; [simpl; set_solver|].
      destruct (foldl tx_body _ (tx :: txs)) as [s n] eqn:E.
      by destruct (tx_loop_spec _ _ _ _ _ E) as (_ & _ & _ & _ & _ & -> & _).
    + intros tx -> Hnin H200.
      assert (poll_round seen (Txs [tx]) = ({[tx]} ∪ seen, Some [tx])) as ->.
      { unfold poll_round. rewrite decide_False by lia. simpl.
        by rewrite decide_False by done. }
      split; [done|]. unfold fst.
      rewrite size_union, size_singleton by set_solver. lia.
Qed.

End Watcher.

Section WatcherExamples.

Import Example.

(** C6, as stated, fails: with 200 identifiers cached, the round that
    inserts a 201st distinct one empties nothing; the cache then holds 201
    identifiers, not 1, and still contains the old ones. *)
Lemma dedup_cache_201st_identifier :
  size seen200 = 200%nat
  ∧ ("new" ∉ seen200)
  ∧ (poll_round seen200 (Txs ["new"])).2 = Some ["new"]
  ∧ size (poll_round seen200 (Txs ["new"])).1 = 201%nat
  ∧ size (poll_round seen200 (Txs ["new"])).1 ≠ 1%nat
  ∧ "tx0" ∈ (poll_round seen200 (Txs ["new"])).1.
Proof.
  split_and!.
  - vm_compute. reflexivity.
  - apply (bool_decide_unpack _). vm_compute. exact I.
  - vm_compute. reflexivity.
  - vm_compute. reflexivity.
  - vm_compute. discriminate.
  - apply (bool_decide_unpack _). vm_compute. exact I.
Qed.

Lemma poll_round_cache_witness :
  poll_round ({["new"]} ∪ seen200) (Txs ["newer"]) = ({["newer"]}, Some ["newer"])
  ∧ size (poll_round ({["new"]} ∪ seen200) (Txs ["newer"])).1 = 1%nat.
Proof.
  apply (proj1 (poll_round_cache ({["new"]} ∪ seen200) (Txs ["newer"]))).
  - vm_compute. lia.
  - reflexivity.
Defined.

End WatcherExamples.

(** ** Simulating a route *)

Section ProfitFacts.

Context {num : Type}.
Variable calculate_swap : Z → Z → Z → num → num → bool → Z * Z * Z.
Implicit Types (h : heap num) (self : Route) (l : list loc) (pool : loc).

Lemma for_each_app {A S} (body : S → A → option S) (l1 l2 : list A) (s : S) :
  for_each body (l1 ++ l2) s = for_each body l1 s ≫= for_each body l2.
Proof.
  revert s. induction l1 as [|x l1 IH]; intros s; simpl; [done|].
  destruct (body s x); simpl; [apply IH|done].
Qed.

Lemma for_each_cons {A S} (body : S → A → option S) x (l : list A) (s : S) :
  for_each body (x :: l) s = body s x ≫= for_each body l.
Proof. done. Qed.

Lemma enumerate_lookup {A} (l : list A) i x :
  l !! i = Some x → enumerate l !! i = Some (i, x).
Proof. intros H. unfold enumerate. by rewrite list_lookup_imap, H. Qed.

Lemma enumerate_snd {A} (l : list A) : (enumerate l).*2 = l.
Proof.
  unfold enumerate. apply list_eq. intros i.
  rewrite list_lookup_fmap, list_lookup_imap.
  by destruct (l !! i).
Qed.

(** Reading the store after a write. *)
Lemma heap_insert_eq h q (p : Pool num) : (<[q := p]> h) q = p.
Proof. apply fn_lookup_insert. Qed.

Lemma heap_insert_ne h q q' (p : Pool num) : q ≠ q' → (<[q := p]> h) q' = h q'.
Proof. apply fn_lookup_insert_ne. Qed.

Lemma same_but_amounts_refl h : same_but_amounts h h.
Proof. by intros q. Qed.

Lemma same_but_amounts_trans h1 h2 h3 :
  same_but_amounts h1 h2 → same_but_amounts h2 h3 → same_but_amounts h1 h3.
Proof. intros H12 H23 q. by rewrite H23, H12. Qed.

(** [calculate_swap] is called on fields the loop never writes. *)
Lemma pool_swap_same h h' pool a :
  same_but_amounts h h' → pool_swap calculate_swap (h' pool) a = pool_swap calculate_swap (h pool) a.
Proof.
  intros H. specialize (H pool). unfold pool_swap.
  destruct (h pool), (h' pool). unfold clear_amounts in H. simpl in *.
  by simplify_eq.
Qed.

(** The second half of a pass: the call of [calculate_swap] and the write
    of [amount_out]. *)
Lemma swap_step_spec h1 pool :
  ∃ h',
    (let p := h1 pool in
     let '(out, _, _) :=
       calculate_swap (input_reserves p) (output_reserves p)
         (pool_amount_in p) (lp_fee p) (protocol_fee p) (fee_from_input p) in
     Some (<[pool := set_pool_amount_out out p]> h1)) = Some h'
    ∧ pool_amount_in (h' pool) = pool_amount_in (h1 pool)
    ∧ pool_amount_out (h' pool)
      = pool_swap calculate_swap (h1 pool) (pool_amount_in (h1 pool))
    ∧ same_but_amounts h1 h'
    ∧ (∀ q, q ≠ pool → h' q = h1 q).
Proof.
  cbv zeta. unfold pool_swap.
  destruct (calculate_swap _ _ _ _ _ _) as [[out ?] ?] eqn:E.
  eexists. split; [done|]. rewrite heap_insert_eq. simpl.
  split_and!; [done|done| |].
  - intros q. destruct (decide (q = pool)) as [->|Hne].
    + rewrite heap_insert_eq. by destruct (h1 pool).
    + by rewrite heap_insert_ne.
  - intros q Hne. by rewrite heap_insert_ne.
Qed.

(** The first half: the write of [amount_in]. *)
Lemma set_amount_in_same h pool v :
  same_but_amounts h (<[pool := set_pool_amount_in v (h pool)]> h).
Proof.
  intros q. destruct (decide (q = pool)) as [->|Hne].
  - rewrite heap_insert_eq. by destruct (h pool).
  - by rewrite heap_insert_ne.
Qed.

(** One pass: [pool] is fed [amount_in] on the first pass and the previous
    pool's [amount_out] afterwards, its [amount_out] is what
    [calculate_swap] gives for it, and no other object changes. *)
Lemma profit_body_spec self h i pool :
  (i = 0%nat ∨ ∃ j prev, i = S j ∧ pools self !! j = Some prev) →
  ∃ h',
    profit_body calculate_swap self h (i, pool) = Some h'
    ∧ pool_amount_in (h' pool)
      = match i with
        | 0%nat => amount_in self
        | S j => default 0 ((λ prev, pool_amount_out (h prev)) <$> pools self !! j)
        end
    ∧ pool_amount_out (h' pool)
      = pool_swap calculate_swap (h pool) (pool_amount_in (h' pool))
    ∧ same_but_amounts h h'
    ∧ (∀ q, q ≠ pool → h' q = h q).
Proof.
  intros Hi. unfold profit_body.
  assert (∀ v, ∃ h',
    (let p := (<[pool:=set_pool_amount_in v (h pool)]> h) pool in
     let '(out, _, _) :=
       calculate_swap (input_reserves p) (output_reserves p)
         (pool_amount_in p) (lp_fee p) (protocol_fee p) (fee_from_input p) in
     Some (<[pool:=set_pool_amount_out out p]>
             (<[pool:=set_pool_amount_in v (h pool)]> h))) = Some h'
    ∧ pool_amount_in (h' pool) = v
    ∧ pool_amount_out (h' pool) = pool_swap calculate_swap (h pool) v
    ∧ same_but_amounts h h'
    ∧ (∀ q, q ≠ pool → h' q = h q)) as Hstep.
  { intros v.
    destruct (swap_step_spec (<[pool:=set_pool_amount_in v (h pool)]> h) pool)
      as (h' & Hh' & Hin & Hout & Hs & Hf).
    exists h'. rewrite heap_insert_eq in Hin, Hout. simpl in Hin.
    split_and!; [done|done| | |].
    - rewrite Hout. simpl. by destruct (h pool).
    - eapply same_but_amounts_trans; [apply set_amount_in_same|done].
    - intros q Hne. by rewrite (Hf q Hne), heap_insert_ne. }
  destruct Hi as [-> | (j & prev & -> & Hprev)].
  - simpl. destruct (Hstep (amount_in self)) as (h' & Hh' & Hin & Hout & Hs & Hf).
    exists h'. rewrite Hin. done.
  - rewrite Hprev. simpl.
    destruct (Hstep (pool_amount_out (h prev))) as (h' & Hh' & Hin & Hout & Hs & Hf).
    exists h'. rewrite Hin. done.
Qed.

(** A pass writes to its own pool only. *)
Lemma profit_body_frame self h i pool h1 :
  profit_body calculate_swap self h (i, pool) = Some h1 →
  ∀ q, q ≠ pool → h1 q = h q.
Proof.
  unfold profit_body. intros E q Hne.
  assert (∀ h0 : heap num,
    (let p := h0 pool in
     let '(out, _, _) :=
       calculate_swap (input_reserves p) (output_reserves p)
         (pool_amount_in p) (lp_fee p) (protocol_fee p) (fee_from_input p) in
     Some (<[pool := set_pool_amount_out out p]> h0)) = Some h1 →
    h1 q = h0 q) as Hswap.
  { intros h0 H0.
    destruct (swap_step_spec h0 pool) as (h' & Hh' & _ & _ & _ & Hf).
    rewrite Hh' in H0. injection H0 as <-. by apply Hf. }
  destruct i as [|j].
  - simpl in E. rewrite (Hswap _ E). by apply heap_insert_ne.
  - destruct (pools self !! j) as [prev|]; simpl in E; [|done].
    rewrite (Hswap _ E). by apply heap_insert_ne.
Qed.

(** The loop leaves alone the objects it does not visit. *)
Lemma profit_loop_frame self (ips : list (nat * loc)) : ∀ h h',
  for_each (profit_body calculate_swap self) ips h = Some h' →
  ∀ q, q ∉ ips.*2 → h' q = h q.
Proof.
  induction ips as [|[i pool] ips IH]; intros h h'.
  - by intros [= ->].
  - rewrite for_each_cons.
    destruct (profit_body calculate_swap self h (i, pool)) as [h1|] eqn:E;
      [|intros; discriminate].
    intros Hrest q Hq. apply not_elem_of_cons in Hq as [Hne Hq].
    rewrite (IH _ _ Hrest q Hq).
    by apply (profit_body_frame _ _ _ _ _ E).
Qed.

(** The first [n] passes of the loop. *)
Lemma profit_loop_prefix self h n :
  (n ≤ length (pools self))%nat →
  ∃ h_n,
    for_each (profit_body calculate_swap self) (take n (enumerate (pools self))) h = Some h_n
    ∧ same_but_amounts h h_n
    ∧ ∀ j pool, n = S j → pools self !! j = Some pool →
        pool_amount_in (h_n pool)
        = amount_after calculate_swap h (amount_in self) (take j (pools self))
        ∧ pool_amount_out (h_n pool)
          = amount_after calculate_swap h (amount_in self) (take (S j) (pools self)).
Proof.
  induction n as [|j IH]; intros Hn.
  - exists h. split_and!; [done|apply same_but_amounts_refl|done].
  - destruct (lookup_lt_is_Some_2 (pools self) j) as [pool Hpool]; [lia|].
    destruct IH as (h_j & Hrun & Hsame & Hprev); [lia|].
    rewrite (take_S_r _ _ _ (enumerate_lookup _ _ _ Hpool)), for_each_app, Hrun.
    change (Some h_j ≫= ?f) with (f h_j). rewrite for_each_cons.
    destruct (profit_body_spec self h_j j pool)
      as (h' & -> & Hin & Hout & Hsame' & _).
    { destruct j as [|j']; [by left|right].
      destruct (lookup_lt_is_Some_2 (pools self) j') as [prev Hp]; [lia|].
      eauto. }
    exists h'. split_and!; [done|by eapply same_but_amounts_trans|].
    intros j0 pool0 [= <-] Hpool0. rewrite Hpool in Hpool0.
    injection Hpool0 as <-.
    assert (pool_amount_in (h' pool)
            = amount_after calculate_swap h (amount_in self) (take j (pools self))) as Hin'.
    { rewrite Hin. destruct j as [|j']; [done|].
      destruct (lookup_lt_is_Some_2 (pools self) j') as [prev Hp]; [lia|].
      rewrite Hp. simpl. by apply (Hprev j' prev). }
    split; [done|].
    rewrite Hout, Hin', (pool_swap_same _ _ _ _ Hsame).
    rewrite (take_S_r _ _ _ Hpool). unfold amount_after.
    by rewrite foldl_app.
Qed.

(** Objects that the passes after the first [n] do not visit keep what the
    first [n] passes left. *)
Lemma profit_loop_suffix_frame self h n h_n h' :
  for_each (profit_body calculate_swap self) (take n (enumerate (pools self))) h
  = Some h_n →
  for_each (profit_body calculate_swap self) (enumerate (pools self)) h
  = Some h' →
  ∀ q, q ∉ drop n (pools self) → h' q = h_n q.
Proof.
  intros Hn Hall q Hq.
  rewrite <- (take_drop n (enumerate (pools self))), for_each_app, Hn in Hall.
  change (Some h_n ≫= ?f) with (f h_n) in Hall.
  apply (profit_loop_frame _ _ _ _ Hall).
  by rewrite fmap_drop, enumerate_snd.
Qed.

(** C3. On a route with at least one pool, [calculate_and_set_profit]
    returns normally.  Pass [i] of its loop feeds pool [i]: [amount_in] of
    the route on pass 0, and on a later pass the [amount_out] the previous
    pool holds at that moment; it then sets the pool's [amount_out] to what
    [calculate_swap] gives for the pool's reserves and fees and that input.
    The profit set on the route and returned is the last pool's
    [amount_out] minus the first pool's [amount_in]; nothing bounds its
    sign.  The last pool's [amount_out] is the amount that comes out of the
    whole chain; when the first pool does not occur again in the route the
    profit is that amount minus the route's [amount_in], and when no pool
    occurs twice every pool ends up holding its own input and output. *)
Theorem calculate_and_set_profit_spec h self first_pool rest :
  pools self = first_pool :: rest →
  ∃ v h' last_pool,
    calculate_and_set_profit calculate_swap h self
    = Some (v, h', set_profit v self)
    ∧ last (pools self) = Some last_pool
    ∧ v = pool_amount_out (h' last_pool) - pool_amount_in (h' first_pool)
    ∧ pool_amount_out (h' last_pool)
      = amount_after calculate_swap h (amount_in self) (pools self)
    ∧ same_but_amounts h h'
    ∧ (∀ i pool, pools self !! i = Some pool →
         ∃ h_i h_i',
           for_each (profit_body calculate_swap self)
             (take i (enumerate (pools self))) h = Some h_i
           ∧ profit_body calculate_swap self h_i (i, pool) = Some h_i'
           ∧ match i with
             | 0%nat => pool_amount_in (h_i' pool) = amount_in self
             | S j => ∃ prev, pools self !! j = Some prev
                              ∧ pool_amount_in (h_i' pool)
                                = pool_amount_out (h_i prev)
             end
           ∧ pool_amount_out (h_i' pool)
             = pool_swap calculate_swap (h pool) (pool_amount_in (h_i' pool))
           ∧ pool_amount_in (h_i' pool)
             = amount_after calculate_swap h (amount_in self)
                 (take i (pools self)))
    ∧ (first_pool ∉ rest →
         pool_amount_in (h' first_pool) = amount_in self
         ∧ v = amount_after calculate_swap h (amount_in self) (pools self)
               - amount_in self)
    ∧ (NoDup (pools self) → ∀ i pool, pools self !! i = Some pool →
         pool_amount_in (h' pool)
         = amount_after calculate_swap h (amount_in self) (take i (pools self))
         ∧ pool_amount_out (h' pool)
           = amount_after calculate_swap h (amount_in self)
               (take (S i) (pools self))).
Proof.
  intros Hpools.
  assert (length (pools self) = S (length rest)) as Hlen
    by (by rewrite Hpools).
  destruct (profit_loop_prefix self h (length (pools self)))
    as (h' & Hrun & Hsame & Hlast); [done|].
  rewrite take_ge in Hrun by (unfold enumerate; by rewrite length_imap).
  destruct (lookup_lt_is_Some_2 (pools self) (length rest)) as [last_pool Hl];
    [lia|].
  assert (last (pools self) = Some last_pool) as Hlast_pool.
  { by rewrite last_lookup, Hlen. }
  assert (pools self !! 0%nat = Some first_pool) as Hfirst
    by (by rewrite Hpools).
  destruct (Hlast _ _ Hlen Hl) as [_ Hout].
  rewrite <- Hlen, take_ge in Hout by done.
  (* what each prefix of the loop leaves *)
  assert (∀ i pool, pools self !! i = Some pool →
            ∃ h_i h_i',
              for_each (profit_body calculate_swap self)
                (take i (enumerate (pools self))) h = Some h_i
              ∧ profit_body calculate_swap self h_i (i, pool) = Some h_i'
              ∧ for_each (profit_body calculate_swap self)
                  (take (S i) (enumerate (pools self))) h = Some h_i'
              ∧ match i with
                | 0%nat => pool_amount_in (h_i' pool) = amount_in self
                | S j => ∃ prev, pools self !! j = Some prev
                                 ∧ pool_amount_in (h_i' pool)
                                   = pool_amount_out (h_i prev)
                end
              ∧ pool_amount_out (h_i' pool)
                = pool_swap calculate_swap (h pool) (pool_amount_in (h_i' pool))
              ∧ pool_amount_in (h_i' pool)
                = amount_after calculate_swap h (amount_in self)
                    (take i (pools self))
              ∧ pool_amount_out (h_i' pool)
                = amount_after calculate_swap h (amount_in self)
                    (take (S i) (pools self))) as Hpass.
  { intros i pool Hi. pose proof (lookup_lt_Some _ _ _ Hi) as Hlt.
    destruct (profit_loop_prefix self h i) as (h_i & Hrun_i & Hsame_i & _);
      [lia|].
    destruct (profit_loop_prefix self h (S i)) as (h_i' & Hrun_i' & _ & Hi');
      [lia|].
    destruct (Hi' _ _ eq_refl Hi) as [Hin_i' Hout_i'].
    pose proof Hrun_i' as Hstep.
    rewrite (take_S_r _ _ _ (enumerate_lookup _ _ _ Hi)), for_each_app, Hrun_i
      in Hstep.
    change (Some h_i ≫= ?f) with (f h_i) in Hstep. rewrite for_each_cons in Hstep.
    destruct (profit_body_spec self h_i i pool)
      as (h2 & Hbody & Hin & Hout2 & _ & _).
    { destruct i as [|j]; [by left|right].
      destruct (lookup_lt_is_Some_2 (pools self) j) as [prev Hp]; [lia|].
      eauto. }
    rewrite Hbody in Hstep. injection Hstep as ->.
    exists h_i, h_i'. split_and!; [done|done|done| | |done|done].
    - destruct i as [|j]; [done|].
      destruct (lookup_lt_is_Some_2 (pools self) j) as [prev Hp]; [lia|].
      exists prev. split; [done|]. by rewrite Hin, Hp.
    - by rewrite Hout2, (pool_swap_same _ _ _ _ Hsame_i). }
  exists (pool_amount_out (h' last_pool) - pool_amount_in (h' first_pool)),
    h', last_pool.
  split_and!; [|done|done|done|done| | |].
  - unfold calculate_and_set_profit. rewrite Hrun.
    change (Some h' ≫= ?f) with (f h'). rewrite Hlast_pool, Hfirst. done.
  - intros i pool Hi.
    destruct (Hpass i pool Hi) as (h_i & h_i' & ? & ? & ? & ? & ? & ? & ?).
    exists h_i, h_i'. done.
  - intros Hnotin.
    destruct (Hpass 0%nat first_pool Hfirst)
      as (h_0 & h_1 & _ & _ & Hrun1 & Hin1 & _ & _ & _).
    assert (pool_amount_in (h' first_pool) = amount_in self) as ->.
    { rewrite (profit_loop_suffix_frame self h 1 h_1 h' Hrun1 Hrun); [done|].
      by rewrite Hpools. }
    split; [done|]. by rewrite Hout.
  - intros Hnd i pool Hi.
    destruct (Hpass i pool Hi)
      as (h_i & h_i' & _ & _ & Hrun' & _ & _ & Hin' & Hout').
    rewrite (profit_loop_suffix_frame self h (S i) h_i' h' Hrun' Hrun); [done|].
    rewrite <- (take_drop_middle _ _ _ Hi) in Hnd.
    apply NoDup_app in Hnd as (_ & _ & Hnd).
    by apply NoDup_cons in Hnd as [Hnd _].
Qed.

End ProfitFacts.

Section ProfitExamples.

Import Binary64 Example.

(** 1000 of A gives 2097 of B, then 3142 of C, then 1046 of A. *)
Example calculate_and_set_profit_route3 :
  (λ r, (r.1.1, profit r.2,
         pool_amount_in <$> (r.1.2 <$> pools r.2),
         pool_amount_out <$> (r.1.2 <$> pools r.2)))
  <$> calculate_and_set_profit fee_free_swap store route3_funded
  = Some (46, 46, [1000; 2097; 3142], [2097; 3142; 1046]).
Proof. vm_compute. reflexivity. Qed.

(** Too large an input loses: the profit is negative. *)
Example calculate_and_set_profit_negative :
  (λ r, r.1.1)
  <$> calculate_and_set_profit fee_free_swap store (set_amount_in 100000 route3)
  = Some (-19848).
Proof. vm_compute. reflexivity. Qed.

(** An empty route raises: [self.pools[-1]] is out of range. *)
Example calculate_and_set_profit_empty :
  calculate_and_set_profit fee_free_swap store (set_pools [] route3_funded)
  = None.
Proof. reflexivity. Qed.

(** When the first pool is also the last, the last pass overwrites its
    [amount_in]: the profit is taken against that later input, not against
    the route's [amount_in]. *)
Example calculate_and_set_profit_shared_pool :
  (λ r, (r.1.1, pool_amount_in (r.1.2 0%nat), pool_amount_out (r.1.2 0%nat)))
  <$> calculate_and_set_profit fee_free_swap store route_twice
  = Some (9834 - 4705, 4705, 9834)
  ∧ amount_after fee_free_swap store 1000 (pools route_twice) = 9834.
Proof. split; vm_compute; reflexivity. Qed.

Lemma calculate_and_set_profit_spec_witness :
  ∃ v h',
    calculate_and_set_profit fee_free_swap store route3_funded
    = Some (v, h', set_profit v route3_funded)
    ∧ v = amount_after fee_free_swap store 1000 (pools route3_funded) - 1000.
Proof.
  destruct (calculate_and_set_profit_spec fee_free_swap store route3_funded
              0%nat [1; 2]%nat eq_refl)
    as (v & h' & last_pool & Hrun & _ & _ & _ & _ & _ & Hfirst & _).
  exists v, h'. split; [exact Hrun|].
  apply Hfirst. intros Hin. apply list_elem_of_In in Hin. simpl in Hin.
  destruct Hin as [H|[H|[]]]; discriminate H.
Defined.

End ProfitExamples.

(** ** The optimal amount *)

Section OptimalFacts.

Context `{PyArith num}.
Implicit Types (h : heap num) (self : Route) (rest : list loc).
Local Open Scope py_scope.

Lemma mapM_cons {A B} (f : A → option B) x (l : list A) :
  mapM f (x :: l) = y ← f x; k ← mapM f l; Some (y :: k).
Proof. done. Qed.

(** One pass of the first loop appends the pool's reserves and its
    multipliers. *)
Lemma append_pool_multipliers h (a b : list Z) (c d : list num) pool :
  append_pool h (a, b, c, d) pool
  = fg ← multipliers (h pool);
    Some (a ++ [input_reserves (h pool)], b ++ [output_reserves (h pool)],
          c ++ [fg.1], d ++ [fg.2]).
Proof.
  unfold append_pool, multipliers, lift2. simpl.
  destruct (py_add (lp_fee (h pool)) (protocol_fee (h pool))) as [rate|];
    simpl; [|by destruct (fee_from_input (h pool))].
  destruct (py_sub (of_int 1) rate) as [keep|]; simpl;
    by destruct (fee_from_input (h pool)).
Qed.

(** The first loop. *)
Lemma fee_lists_loop h l : ∀ (a b : list Z) (c d : list num),
  for_each (append_pool h) l (a, b, c, d)
  = fgs ← mapM (λ pool, multipliers (h pool)) l;
    Some (a ++ ((λ pool, input_reserves (h pool)) <$> l),
          b ++ ((λ pool, output_reserves (h pool)) <$> l),
          c ++ fgs.*1, d ++ fgs.*2).
Proof.
  induction l as [|pool l IH]; intros a b c d.
  - simpl. by rewrite !app_nil_r.
  - rewrite for_each_cons, append_pool_multipliers, mapM_cons.
    destruct (multipliers (h pool)) as [fg|]; simpl; [|done].
    rewrite IH.
    destruct (mapM (λ pool0, multipliers (h pool0)) l) as [fgs|]; simpl;
      [|done].
    by rewrite <- !app_assoc.
Qed.

(** A pass of the second loop is the specified folding step. *)
Lemma a_prime_body_fold_pool (A : num * num) (p : Pool num) fg :
  multipliers p = Some fg →
  a_prime_body A (input_reserves p, output_reserves p, fg.1, fg.2)
  = fold_pool A p.
Proof.
  intros Hfg. unfold fold_pool. rewrite Hfg. simpl.
  by destruct A as [A_in A_out], fg as [f g].
Qed.

Lemma fold_pool_no_multipliers (A : num * num) (p : Pool num) :
  multipliers p = None → fold_pool A p = None.
Proof. intros Hfg. unfold fold_pool. by rewrite Hfg. Qed.

(** The second loop, over what the first loop collected for the pools
    after the first. *)
Lemma a_prime_loop h rest : ∀ (A : num * num),
  match mapM (λ pool, multipliers (h pool)) rest with
  | Some fgs =>
      for_each a_prime_body
        (zip4 ((λ pool, input_reserves (h pool)) <$> rest)
              ((λ pool, output_reserves (h pool)) <$> rest)
              fgs.*1 fgs.*2) A
      = for_each fold_pool (h <$> rest) A
  | None => for_each fold_pool (h <$> rest) A = None
  end.
Proof.
  induction rest as [|pool rest IH]; intros A; [done|].
  rewrite mapM_cons.
  destruct (multipliers (h pool)) as [fg|] eqn:Hfg; simpl.
  - destruct (mapM (λ pool0, multipliers (h pool0)) rest) as [fgs|] eqn:Hfgs;
      simpl.
    + rewrite (a_prime_body_fold_pool A (h pool) fg Hfg).
      destruct (fold_pool A (h pool)) as [A'|]; simpl; [|done].
      exact (IH A').
    + destruct (fold_pool A (h pool)) as [A'|]; simpl; [|done].
      exact (IH A').
  - by rewrite (fold_pool_no_multipliers A (h pool) Hfg).
Qed.

(** C2. On a route with at least one pool,
    [calculate_and_set_optimal_amount_in] computes the closed form: with the
    multipliers [(f_i, g_i)] of each pool, it starts from the reserves of
    pool 0, folds every later pool into [(A_in, A_out)] by the two
    quotients, and sets [optimal_amount_in] to the floor of
    [(sqrt(f_0 * g_0 * A_out' * A_in') - A_in') / f_0]; it raises exactly
    when an operation of the closed form raises, and changes no other
    field. *)
Theorem calculate_and_set_optimal_amount_in_closed_form h self first_pool rest :
  pools self = first_pool :: rest →
  calculate_and_set_optimal_amount_in h self
  = (v ← closed_form_optimal_in (h first_pool) (h <$> rest);
     Some (set_optimal_amount_in v self))
  ∧ (∀ v, closed_form_optimal_in (h first_pool) (h <$> rest) = Some v →
       ∃ self', calculate_and_set_optimal_amount_in h self = Some self'
                ∧ optimal_amount_in self' = v
                ∧ pools self' = pools self
                ∧ profit self' = profit self
                ∧ amount_in self' = amount_in self).
Proof.
  intros Hpools.
  assert (calculate_and_set_optimal_amount_in h self
          = (v ← closed_form_optimal_in (h first_pool) (h <$> rest);
             Some (set_optimal_amount_in v self))) as Heq.
  { unfold calculate_and_set_optimal_amount_in, closed_form_optimal_in.
    rewrite Hpools, fee_lists_loop, mapM_cons.
    pose proof (a_prime_loop h rest
                  (of_int (input_reserves (h first_pool)),
                   of_int (output_reserves (h first_pool)))) as Hloop.
    destruct (multipliers (h first_pool)) as [[f0 g0]|] eqn:Hfg; simpl.
    - destruct (mapM (λ pool, multipliers (h pool)) rest) as [fgs|];
        simpl.
      + unfold fmap in Hloop. rewrite !drop_0, Hloop.
        by destruct (for_each fold_pool _ _) as [[A_in A_out]|].
      + by rewrite Hloop.
    - by destruct (for_each fold_pool _ _) as [[A_in A_out]|]. }
  split; [done|].
  intros v Hv. rewrite Heq, Hv. simpl. eauto 10.
Qed.

(** An empty route raises: [input_reserves[0]] is out of range. *)
Lemma calculate_and_set_optimal_amount_in_empty h self :
  pools self = [] → calculate_and_set_optimal_amount_in h self = None.
Proof.
  intros Hpools. unfold calculate_and_set_optimal_amount_in.
  by rewrite Hpools.
Qed.

End OptimalFacts.

Section OptimalExamples.

Import Binary64 Example.

(** On the three-pool route, in binary64 arithmetic. *)
Example calculate_and_set_optimal_amount_in_route3 :
  calculate_and_set_optimal_amount_in store route3
  = Some (set_optimal_amount_in 6519 route3)
  ∧ closed_form_optimal_in (store 0%nat) (store <$> [1; 2]%nat) = Some 6519.
Proof. split; vm_compute; reflexivity. Qed.

(** An empty route raises [IndexError]. *)
Example calculate_and_set_optimal_amount_in_no_pool :
  calculate_and_set_optimal_amount_in store (set_pools [] route3) = None.
Proof. reflexivity. Qed.

(** A second pool without reserves, behind a first pool that pays nothing
    out, makes the first quotient [0 / 0.0]: [ZeroDivisionError]. *)
Example calculate_and_set_optimal_amount_in_raises :
  let h : heap num := λ l,
    match l with
    | 0%nat => pool "A" "B" 1000 0
    | _ => pool "B" "A" 0 1000
    end in
  calculate_and_set_optimal_amount_in h (set_pools [0; 1]%nat route3) = None
  ∧ closed_form_optimal_in (h 0%nat) [h 1%nat] = None.
Proof. split; vm_compute; reflexivity. Qed.

Lemma calculate_and_set_optimal_amount_in_closed_form_witness :
  calculate_and_set_optimal_amount_in store route3
  = (v ← closed_form_optimal_in (store 0%nat) (store <$> [1; 2]%nat);
     Some (set_optimal_amount_in v route3)).
Proof.
  apply (proj1 (calculate_and_set_optimal_amount_in_closed_form store route3
                  0%nat [1; 2]%nat eq_refl)).
Defined.

End OptimalExamples.

Section CounterDirectionExample.

Import Binary64 Example.

Lemma order_pools_counter_direction_witness :
  ∃ self' k',
    order_pools dataclass_eq store contracts (swap_on "juno1bc" "C") "A" route3
    = Some self'
    ∧ pools self' !! k' = Some 1%nat
    ∧ denom_after store "A" (take k' (pools self')) = Some "C".
Proof.
  apply (order_pools_counter_direction dataclass_eq store contracts
           (swap_on "juno1bc" "C") "A" route3 1%nat 0%nat 1%nat 2%nat
           "B" "C" 1%nat 1%nat);
    try (vm_compute; reflexivity); try discriminate.
  vm_compute. eauto.
Defined.

End CounterDirectionExample.

(** ** More on the mempool watcher *)

Section WatcherRounds.

Implicit Types (seen cache : gset string) (txs new : list string) (tx : string)
  (node : list poll).

Lemma cache_for_batch_idem seen :
  cache_for_batch (cache_for_batch seen) = cache_for_batch seen.
Proof.
  unfold cache_for_batch. destruct (decide (200 < size seen)%nat) as [Hgt|Hle].
  - rewrite decide_False; [done|]. rewrite size_empty. lia.
  - by rewrite decide_False.
Qed.

Lemma cache_for_batch_size seen : (size (cache_for_batch seen) ≤ 200)%nat.
Proof.
  unfold cache_for_batch. destruct (decide (200 < size seen)%nat).
  - rewrite size_empty. lia.
  - lia.
Qed.

Lemma first_appearances_snoc txs tx :
  first_appearances (txs ++ [tx])
  = if decide (tx ∈ txs) then first_appearances txs
    else first_appearances txs ++ [tx].
Proof.
  unfold first_appearances. rewrite reverse_snoc. simpl.
  destruct (decide_rel elem_of tx (reverse txs)) as [Hin|Hnin].
  - rewrite decide_True; [done|]. by apply elem_of_reverse.
  - rewrite decide_False, reverse_cons; [done|].
    intros Hin. by apply Hnin, elem_of_reverse.
Qed.

Lemma elem_of_first_appearances txs tx : tx ∈ first_appearances txs ↔ tx ∈ txs.
Proof.
  unfold first_appearances.
  by rewrite elem_of_reverse, elem_of_remove_dups, elem_of_reverse.
Qed.

Lemma NoDup_first_appearances txs : NoDup (first_appearances txs).
Proof.
  unfold first_appearances. rewrite reverse_Permutation.
  apply NoDup_remove_dups.
Qed.

Lemma elem_of_unseen cache txs tx :
  tx ∈ unseen cache txs ↔ tx ∈ txs ∧ tx ∉ cache.
Proof.
  unfold unseen. rewrite list_elem_of_filter, elem_of_first_appearances.
  tauto.
Qed.

Lemma unseen_nil_iff cache txs :
  unseen cache txs = [] ↔ ∀ tx, tx ∈ txs → tx ∈ cache.
Proof.
  split.
  - intros Hnil tx Hin. destruct (decide (tx ∈ cache)) as [|Hout]; [done|].
    assert (tx ∈ unseen cache txs) as Hu by (by apply elem_of_unseen).
    rewrite Hnil in Hu. by apply elem_of_nil in Hu.
  - intros Hall. destruct (unseen cache txs) as [|tx l] eqn:E; [done|].
    assert (tx ∈ unseen cache txs) as Hu by (rewrite E; left).
    apply elem_of_unseen in Hu as [Hin Hout]. destruct Hout. by apply Hall.
Qed.

(** The loop over a batch, in one step. *)
Lemma tx_loop_unseen cache txs :
  foldl tx_body (cache, []) txs
  = (cache ∪ list_to_set txs, unseen cache txs).
Proof.
  induction txs as [|tx txs IH] using rev_ind.
  - simpl. unfold unseen, first_appearances. simpl.
    by rewrite (right_id_L ∅ (∪)).
  - rewrite foldl_app, IH. simpl.
    unfold unseen. rewrite first_appearances_snoc, list_to_set_snoc_L.
    destruct (decide (tx ∈ cache ∪ list_to_set txs)) as [Hin|Hout].
    + f_equal; [set_solver|].
      destruct (decide (tx ∈ txs)) as [|Hnot]; [done|].
      rewrite filter_app, filter_cons_False, filter_nil, app_nil_r; [done|].
      set_solver.
    + rewrite decide_False by set_solver.
      rewrite filter_app, filter_cons_True, filter_nil by set_solver.
      f_equal. set_solver.
Qed.

(** A round, in one step. *)
Lemma poll_round_unseen_eq seen r :
  poll_round seen r
  = match r with
    | Txs txs =>
        (cache_for_batch seen ∪ list_to_set txs,
         match unseen (cache_for_batch seen) txs with
         | [] => None
         | new => Some new
         end)
    | _ => (cache_for_batch seen, None)
    end.
Proof.
  unfold poll_round. fold (cache_for_batch seen).
  destruct r as [| | |txs]; try done.
  destruct txs as [|tx txs].
  - unfold unseen, first_appearances. simpl.
    by rewrite (right_id_L ∅ (∪)).
  - rewrite tx_loop_unseen.
    by destruct (unseen (cache_for_batch seen) (tx :: txs)).
Qed.

(** A round that brings nothing new gives no result and leaves the cache as
    the clearing left it. *)
Lemma poll_round_nothing_new seen r :
  nothing_new (cache_for_batch seen) r →
  poll_round seen r = (cache_for_batch seen, None).
Proof.
  intros Hr. rewrite poll_round_unseen_eq.
  destruct r as [| | |txs]; try done. simpl in Hr.
  rewrite (proj2 (unseen_nil_iff _ _) Hr).
  f_equal. apply set_eq. intros tx. rewrite elem_of_union, elem_of_list_to_set.
  naive_solver.
Qed.

Lemma poll_round_None_nothing_new seen r s :
  poll_round seen r = (s, None) → nothing_new (cache_for_batch seen) r.
Proof.
  rewrite poll_round_unseen_eq. destruct r as [| | |txs]; try done.
  destruct (unseen (cache_for_batch seen) txs) as [|tx l] eqn:E; [|done].
  intros _. simpl. by apply (proj1 (unseen_nil_iff _ _)).
Qed.

Lemma query_node_cons r node seen :
  query_node_for_new_mempool_txs (r :: node) seen
  = match poll_round seen r with
    | (seen', Some new) => Some (new, seen')
    | (seen', None) => query_node_for_new_mempool_txs node seen'
    end.
Proof. done. Qed.

Lemma cache_after_cons r node seen :
  cache_after (r :: node) seen = cache_after node (poll_round seen r).1.
Proof. done. Qed.

Lemma remove_dups_snoc (l : list string) (x : string) :
  remove_dups (l ++ [x]) = filter (λ y, y ≠ x) (remove_dups l) ++ [x].
Proof.
  induction l as [|y l IH]; [done|].
  change ((y :: l) ++ [x]) with (y :: (l ++ [x])). simpl.
  destruct (decide_rel elem_of y (l ++ [x])) as [Hin|Hout];
    destruct (decide_rel elem_of y l) as [Hin'|Hout']; rewrite IH.
  - done.
  - apply elem_of_app in Hin as [?|Hx]; [done|].
    apply list_elem_of_singleton in Hx as ->.
    by rewrite filter_cons_False by (by intros []).
  - destruct Hout. apply elem_of_app. by left.
  - rewrite filter_cons_True; [done|].
    intros ->. apply Hout, elem_of_app. right. by left.
Qed.

(** [first_appearances] by recursion over the batch. *)
Lemma first_appearances_cons tx txs :
  first_appearances (tx :: txs)
  = tx :: filter (λ y, y ≠ tx) (first_appearances txs).
Proof.
  unfold first_appearances.
  by rewrite reverse_cons, remove_dups_snoc, reverse_snoc, filter_reverse.
Qed.

Lemma size_list_to_set_le txs :
  (size (list_to_set txs : gset string) ≤ length txs)%nat.
Proof.
  induction txs as [|tx txs IH].
  - rewrite list_to_set_nil, size_empty. done.
  - rewrite list_to_set_cons, size_union_alt, size_singleton. simpl.
    pose proof (subseteq_size (list_to_set txs ∖ {[tx]} : gset string)
                  (list_to_set txs)) as Hle.
    specialize (Hle ltac:(set_solver)). lia.
Qed.

Lemma poll_round_size seen r :
  (size (poll_round seen r).1
   ≤ 200 + match r with Txs txs => length txs | _ => 0 end)%nat.
Proof.
  rewrite poll_round_unseen_eq. pose proof (cache_for_batch_size seen) as Hc.
  destruct r as [| | |txs]; simpl; try lia.
  rewrite size_union_alt.
  pose proof (subseteq_size (list_to_set txs ∖ cache_for_batch seen : gset string)
                (list_to_set txs)) as Hle.
  specialize (Hle ltac:(set_solver)).
  pose proof (size_list_to_set_le txs). lia.
Qed.

(** A call that returns did so on a batch of [node], with the identifiers
    of the batch that the cache, cleared if need be, did not hold. *)
Lemma query_node_Some_inv node : ∀ seen new seen',
  query_node_for_new_mempool_txs node seen = Some (new, seen') →
  ∃ txs,
    Txs txs ∈ node
    ∧ new = unseen (cache_for_batch seen) txs
    ∧ new ≠ []
    ∧ seen' = cache_for_batch seen ∪ list_to_set txs.
Proof.
  induction node as [|r node IH]; intros seen new seen'; [done|].
  rewrite query_node_cons.
  destruct (poll_round seen r) as [s1 [l|]] eqn:E.
  - intros [= -> ->]. rewrite poll_round_unseen_eq in E.
    destruct r as [| | |txs]; try done.
    destruct (unseen (cache_for_batch seen) txs) as [|tx l] eqn:Eu; [done|].
    injection E as <- <-. exists txs. split_and!; [left|done|done|done].
  - intros Hret.
    pose proof (poll_round_None_nothing_new _ _ _ E) as Hnn.
    rewrite (poll_round_nothing_new _ _ Hnn) in E. injection E as <-.
    destruct (IH _ _ _ Hret) as (txs & Hin & Hnew & Hne & Hs).
    rewrite cache_for_batch_idem in Hnew, Hs.
    exists txs. split_and!; [by right|done|done|done].
Qed.

(** Rounds that bring nothing new are passed over, and the first batch with
    something new is returned from. *)
Lemma query_node_first_new node1 txs node2 seen :
  Forall (nothing_new (cache_for_batch seen)) node1 →
  unseen (cache_for_batch seen) txs ≠ [] →
  query_node_for_new_mempool_txs (node1 ++ Txs txs :: node2) seen
  = Some (unseen (cache_for_batch seen) txs,
          cache_for_batch seen ∪ list_to_set txs).
Proof.
  revert seen. induction node1 as [|r node1 IH]; intros seen Hall Hnew.
  - rewrite app_nil_l, query_node_cons, poll_round_unseen_eq.
    by destruct (unseen (cache_for_batch seen) txs).
  - apply Forall_cons in Hall as [Hr Hall].
    rewrite <- app_comm_cons, query_node_cons.
    rewrite (poll_round_nothing_new _ _ Hr).
    rewrite <- (cache_for_batch_idem seen) at 2 3.
    apply IH; by rewrite cache_for_batch_idem.
Qed.

(** X2. One round on a batch: the cache is cleared if it holds more than
    200 identifiers and then takes in the whole batch; the round returns the
    identifiers of the batch that the cache did not hold, each once and in
    the order in which they first appear in the batch, and gives no result
    when there is none. *)
Theorem poll_round_unseen seen txs :
  poll_round seen (Txs txs)
  = (cache_for_batch seen ∪ list_to_set txs,
     match unseen (cache_for_batch seen) txs with
     | [] => None
     | new => Some new
     end)
  ∧ NoDup (unseen (cache_for_batch seen) txs)
  ∧ (∀ tx, tx ∈ unseen (cache_for_batch seen) txs
           ↔ tx ∈ txs ∧ tx ∉ cache_for_batch seen)
  ∧ first_appearances [] = []
  ∧ (∀ tx txs', first_appearances (tx :: txs')
                = tx :: filter (λ y, y ≠ tx) (first_appearances txs')).
Proof.
  split_and!.
  - apply (poll_round_unseen_eq seen (Txs txs)).
  - unfold unseen. apply NoDup_filter, NoDup_first_appearances.
  - apply elem_of_unseen.
  - done.
  - apply first_appearances_cons.
Qed.


(** X4. The call returns at the first round whose batch holds an identifier
    that the cache, cleared if it held more than 200, does not hold: it
    returns the unseen identifiers of that batch in order of first
    appearance, and the cache then holds what it held plus that batch. *)
Theorem query_node_returns_first_new node1 txs node2 seen :
  Forall (nothing_new (cache_for_batch seen)) node1 →
  unseen (cache_for_batch seen) txs ≠ [] →
  query_node_for_new_mempool_txs (node1 ++ Txs txs :: node2) seen
  = Some (unseen (cache_for_batch seen) txs,
          cache_for_batch seen ∪ list_to_set txs).
Proof. apply query_node_first_new. Qed.

(** X5. When no batch lists more than [n] identifiers, a cache of at most
    [200 + n] identifiers stays within [200 + n] through any rounds, and the
    cache a call leaves when it returns is within [200 + n] whatever it held
    before. *)
Theorem cache_size_bounded (n : nat) node seen :
  (∀ txs, Txs txs ∈ node → (length txs ≤ n)%nat) →
  ((size seen ≤ 200 + n)%nat → (size (cache_after node seen) ≤ 200 + n)%nat)
  ∧ (∀ new seen', query_node_for_new_mempool_txs node seen = Some (new, seen') →
       (size seen' ≤ 200 + n)%nat).
Proof.
  intros Hbatch. split.
  - revert seen Hbatch. induction node as [|r node IH]; intros seen Hbatch Hs;
      [done|].
    rewrite cache_after_cons. apply IH.
    + intros txs Hin. apply Hbatch. by right.
    + pose proof (poll_round_size seen r) as Hr.
      destruct r as [| | |txs]; try lia.
      specialize (Hbatch txs ltac:(left)). lia.
  - intros new seen' Hret.
    destruct (query_node_Some_inv _ _ _ _ Hret) as (txs & Hin & _ & _ & ->).
    specialize (Hbatch txs Hin).
    pose proof (poll_round_size seen (Txs txs)) as Hr.
    rewrite poll_round_unseen_eq in Hr. simpl in Hr. lia.
Qed.

(** X6. Once the cache holds more than 200 identifiers, an identifier it
    holds is reported again: the first round that lists it returns it. *)
Theorem identifier_reported_again node1 txs node2 seen tx :
  (200 < size seen)%nat →
  tx ∈ seen →
  Forall (nothing_new ∅) node1 →
  tx ∈ txs →
  ∃ new seen',
    query_node_for_new_mempool_txs (node1 ++ Txs txs :: node2) seen
    = Some (new, seen')
    ∧ tx ∈ new.
Proof.
  intros Hsz Hseen Hall Hin.
  assert (cache_for_batch seen = ∅) as Hc
    by (unfold cache_for_batch; by rewrite decide_True).
  assert (tx ∈ unseen (cache_for_batch seen) txs) as Hu.
  { apply elem_of_unseen. split; [done|]. rewrite Hc. set_solver. }
  eexists _, _. split.
  - apply query_node_first_new.
    + by rewrite Hc.
    + intros Hnil. rewrite Hnil in Hu. by apply elem_of_nil in Hu.
  - done.
Qed.

(** X7. When a call returned and left at most 200 identifiers in the cache,
    the next call reports none of the identifiers the first one reported,
    and the cache keeps everything it held. *)
Theorem successive_calls_disjoint node1 node2 seen new1 seen1 new2 seen2 :
  query_node_for_new_mempool_txs node1 seen = Some (new1, seen1) →
  (size seen1 ≤ 200)%nat →
  query_node_for_new_mempool_txs node2 seen1 = Some (new2, seen2) →
  (∀ tx, tx ∈ new1 → tx ∉ new2)
  ∧ (∀ tx, tx ∈ new1 → tx ∈ seen2)
  ∧ seen1 ⊆ seen2.
Proof.
  intros H1 Hsz H2.
  destruct (query_node_Some_inv _ _ _ _ H1) as (txs1 & _ & -> & _ & ->).
  destruct (query_node_Some_inv _ _ _ _ H2) as (txs2 & _ & -> & _ & ->).
  assert (∀ s, (size s ≤ 200)%nat → cache_for_batch s = s) as Hkeep.
  { intros s Hs. unfold cache_for_batch. rewrite decide_False; [done|lia]. }
  rewrite (Hkeep _ Hsz).
  assert (∀ tx, tx ∈ unseen (cache_for_batch seen) txs1 →
            tx ∈ cache_for_batch seen ∪ list_to_set txs1) as Hin.
  { intros tx Htx. apply elem_of_unseen in Htx as [Htx _]. set_solver. }
  split_and!.
  - intros tx Htx Htx2. apply elem_of_unseen in Htx2 as [_ Hout].
    by apply Hout, Hin.
  - intros tx Htx. apply elem_of_union. left. by apply Hin.
  - set_solver.
Qed.

End WatcherRounds.

(** *** What a call returns, and against which cache *)

Section WatcherReturns.

Implicit Types (seen : gset string) (txs new : list string) (tx : string)
  (node : list poll).

(** Rounds that end without a result leave the cache as the clearing of the
    first of them left it. *)
Lemma query_node_None_cache node : ∀ seen,
  query_node_for_new_mempool_txs node seen = None →
  cache_for_batch (cache_after node seen) = cache_for_batch seen.
Proof.
  induction node as [|r node IH]; intros seen; [done|].
  rewrite query_node_cons, cache_after_cons.
  destruct (poll_round seen r) as [s1 [l|]] eqn:E; [done|].
  intros Hnone. pose proof (poll_round_None_nothing_new _ _ _ E) as Hnn.
  rewrite (poll_round_nothing_new _ _ Hnn) in E. injection E as <-.
  simpl. rewrite (IH _ Hnone). apply cache_for_batch_idem.
Qed.

Lemma cache_for_batch_small seen :
  (size seen ≤ 200)%nat → cache_for_batch seen = seen.
Proof. intros Hs. unfold cache_for_batch. rewrite decide_False; [done|lia]. Qed.

Lemma cache_for_batch_large seen :
  (200 < size seen)%nat → cache_for_batch seen = ∅.
Proof. intros Hs. unfold cache_for_batch. by rewrite decide_True. Qed.

(** C7, amended. Whenever [query_node_for_new_mempool_txs] returns, the
    list it returns is not empty and has no repetition; it was collected in
    the round that got the batch [txs], from the cache as that batch found
    it, which is the cache the call was given, emptied if it held more than
    200 identifiers: every identifier returned is in the batch, was absent
    from that cache and is in the cache afterwards, no identifier of that
    cache is returned, and the cache grew by exactly the identifiers
    returned.  So an identifier of the cache the call was given is never
    returned when that cache holds at most 200 identifiers, and the cache
    then keeps all it held; a cache of more than 200 identifiers is emptied
    first, and what the call leaves is the identifiers returned.  Inserting
    the same identifier a second time, in the same batch or in a later
    round that finds at most 200 identifiers, changes neither the cache nor
    the result. *)
Theorem query_node_for_new_mempool_txs_returns node seen new seen' :
  query_node_for_new_mempool_txs node seen = Some (new, seen') →
  new ≠ []
  ∧ NoDup new
  ∧ (∃ node1 txs node2,
       node = node1 ++ Txs txs :: node2
       ∧ query_node_for_new_mempool_txs node1 seen = None
       ∧ cache_for_batch (cache_after node1 seen) = cache_for_batch seen
       ∧ foldl tx_body (cache_for_batch seen, []) txs = (seen', new)
       ∧ (∀ tx, tx ∈ new → tx ∈ txs))
  ∧ (∀ tx, tx ∈ new → (tx ∉ cache_for_batch seen) ∧ tx ∈ seen')
  ∧ (∀ tx, tx ∈ cache_for_batch seen → (tx ∉ new) ∧ tx ∈ seen')
  ∧ seen' = cache_for_batch seen ∪ list_to_set new
  ∧ size seen' = (size (cache_for_batch seen) + length new)%nat
  ∧ ((size seen ≤ 200)%nat →
       cache_for_batch seen = seen
       ∧ (∀ tx, tx ∈ seen → (tx ∉ new) ∧ tx ∈ seen')
       ∧ size seen' = (size seen + length new)%nat)
  ∧ ((200 < size seen)%nat →
       cache_for_batch seen = ∅ ∧ seen' = list_to_set new)
  ∧ (∀ tx, tx ∈ seen' → (size seen' ≤ 200)%nat →
       poll_round seen' (Txs [tx]) = (seen', None))
  ∧ (∀ s tx, tx_body (tx_body s tx) tx = tx_body s tx
             ∧ size (tx_body (tx_body s tx) tx).1 = size (tx_body s tx).1).
Proof.
  intros Hret.
  destruct (query_node_returns_batch _ _ _ _ Hret)
    as (Hne & Hnd & (node1 & txs & node2 & -> & Hnone & Hloop & H1 & H2
                     & H3 & H4) & Htwice).
  pose proof (query_node_None_cache _ _ Hnone) as Hc.
  rewrite Hc in Hloop, H1, H2, H3, H4.
  assert (∀ tx, tx ∈ cache_for_batch seen → (tx ∉ new) ∧ tx ∈ seen') as Hold.
  { intros tx Htx. split; [by apply H2|]. rewrite H3. set_solver. }
  split_and!; try done.
  - exists node1, txs, node2. split_and!; try done.
    intros tx Htx. by destruct (H1 tx Htx).
  - intros tx Htx. destruct (H1 tx Htx) as (_ & ? & ?). done.
  - intros Hs. pose proof (cache_for_batch_small _ Hs) as Hk.
    rewrite Hk in Hold, H4. by split_and!.
  - intros Hs. rewrite (cache_for_batch_large _ Hs) in H3.
    split; [by apply cache_for_batch_large|]. rewrite H3. set_solver.
  - intros tx Htx Hs.
    rewrite <- (cache_for_batch_small _ Hs) at 2.
    apply poll_round_nothing_new. rewrite (cache_for_batch_small _ Hs).
    simpl. intros t Ht. apply list_elem_of_singleton in Ht as ->. done.
Qed.

End WatcherReturns.

Section WatcherReturnsExamples.

Import Example.

(** C7, as stated, fails: the cache holds 201 identifiers, ["tx0"] among
    them, and the call returns ["tx0"] as new, leaving a cache of that one
    identifier.  And ["new"] inserted twice, in two rounds that start from
    200 cached identifiers, is returned both times, the cache going from 201
    identifiers to 1. *)
Lemma dedup_cache_cached_identifier_returned :
  "tx0" ∈ seen201
  ∧ size seen201 = 201%nat
  ∧ query_node_for_new_mempool_txs [Txs ["tx0"]] seen201
    = Some (["tx0"], {["tx0"]} ∪ ∅)
  ∧ (poll_round seen200 (Txs ["new"])).2 = Some ["new"]
  ∧ size (poll_round seen200 (Txs ["new"])).1 = 201%nat
  ∧ (poll_round (poll_round seen200 (Txs ["new"])).1 (Txs ["new"])).2
    = Some ["new"]
  ∧ size (poll_round (poll_round seen200 (Txs ["new"])).1 (Txs ["new"])).1
    = 1%nat.
Proof.
  split_and!.
  - apply (bool_decide_unpack _). vm_compute. exact I.
  - vm_compute. reflexivity.
  - vm_compute. reflexivity.
  - vm_compute. reflexivity.
  - vm_compute. reflexivity.
  - vm_compute. reflexivity.
  - vm_compute. reflexivity.
Qed.

(** The node fails once, then lists two pending transactions, one of them
    twice: the call returns the two in order, and not the identifier the
    cache held. *)
Lemma query_node_for_new_mempool_txs_returns_witness :
  ["a"; "b"] ≠ [] ∧ NoDup ["a"; "b"]
  ∧ (∀ tx, tx ∈ ({["c"]} : gset string) →
       (tx ∉ ["a"; "b"]) ∧ tx ∈ ({["b"]} ∪ ({["a"]} ∪ {["c"]}) : gset string)).
Proof.
  pose proof (query_node_for_new_mempool_txs_returns
                [NoResponse; Txs ["a"; "b"; "a"]] {["c"]} ["a"; "b"]
                ({["b"]} ∪ ({["a"]} ∪ {["c"]}))) as H.
  destruct H as (H1 & H2 & _ & _ & _ & _ & _ & H3 & _).
  - vm_compute. reflexivity.
  - split_and!; [assumption|assumption|].
    apply H3. vm_compute. lia.
Defined.

End WatcherReturnsExamples.

(** ** The balance and the amount *)

(** X10. [update_account_balance] signals a reset exactly when the balance
    query lost its connection, and the balance it then reports is 0, not a
    balance read from the chain.  Sizing with that balance, for a positive
    [optimal_amount_in] and a gas fee that is not negative, sets
    [amount_in] to minus the gas fee. *)
Theorem update_account_balance_reset q new_client account_balance reset :
  update_account_balance q new_client = Ok (account_balance, reset) →
  (reset = true ↔ q = ConnectionLost)
  ∧ (reset = false ↔ q = Balance account_balance)
  ∧ (reset = true → account_balance = 0)
  ∧ (∀ gas_fee self,
       reset = true → 0 ≤ gas_fee → 0 < optimal_amount_in self →
       amount_in (calculate_and_set_amount_in account_balance gas_fee self)
       = - gas_fee).
Proof.
  destruct q as [b| |e]; simpl; [|destruct new_client as [[]|e]|];
    try discriminate; intros [= <- <-].
  - split_and!.
    + split; intros; discriminate.
    + split; done.
    + intros; discriminate.
    + intros; discriminate.
  - split_and!.
    + split; done.
    + split; intros; discriminate.
    + done.
    + intros gas_fee self _ Hgas Hopt. unfold calculate_and_set_amount_in.
      rewrite decide_False by lia. rewrite decide_True by lia. simpl. lia.
Qed.

(** X11. Starting from an [amount_in] that is not negative,
    [calculate_and_set_amount_in] leaves a negative [amount_in] exactly when
    [optimal_amount_in] is positive and the gas fee exceeds the balance;
    calling it again with the same balance and fee changes nothing. *)
Theorem calculate_and_set_amount_in_negative account_balance gas_fee self :
  0 ≤ amount_in self →
  (amount_in (calculate_and_set_amount_in account_balance gas_fee self) < 0
   ↔ 0 < optimal_amount_in self ∧ account_balance < gas_fee)
  ∧ calculate_and_set_amount_in account_balance gas_fee
      (calculate_and_set_amount_in account_balance gas_fee self)
    = calculate_and_set_amount_in account_balance gas_fee self.
Proof.
  intros Hdef. unfold calculate_and_set_amount_in.
  destruct (decide (optimal_amount_in self ≤ 0)) as [Hle|Hgt].
  - rewrite decide_True by done. split; [lia|done].
  - destruct (decide (optimal_amount_in self > account_balance - gas_fee))
      as [Hbig|Hsmall]; simpl.
    + rewrite decide_False by done. rewrite decide_True by done.
      split; [lia|done].
    + rewrite decide_False by done. rewrite decide_False by done.
      split; [lia|done].
Qed.

(** ** More on ordering a route *)

Section OrderMore.

Context {num : Type} (Pool_eq : Pool num → Pool num → bool).
Implicit Types (h : heap num) (self : Route) (swap : Swap) (l : list loc).

Lemma list_index_None h x l :
  list_index Pool_eq h x l = None
  ↔ ∀ y, y ∈ l → y ≠ x ∧ Pool_eq (h y) (h x) = false.
Proof.
  induction l as [|y l IH]; simpl.
  - split; [|done]. intros _ y Hy. by apply elem_of_nil in Hy.
  - destruct (bool_decide (y = x) || Pool_eq (h y) (h x)) eqn:E.
    + split; [done|]. intros Hall.
      destruct (Hall y ltac:(left)) as [Hne Hpe].
      rewrite bool_decide_eq_false_2, Hpe in E by done. done.
    + apply orb_false_iff in E as [Hd Hpe]. apply bool_decide_eq_false in Hd.
      destruct (list_index Pool_eq h x l) as [k|] eqn:Ek; simpl.
      * split; [done|]. intros Hall.
        assert (Some k = None) as Habs; [|done].
        apply IH. intros z Hz. apply Hall. by right.
      * split; [|done]. intros _ z Hz. apply elem_of_cons in Hz as [->|Hz];
          [done|]. by apply IH.
Qed.

Lemma list_index_Some h x l k :
  list_index Pool_eq h x l = Some k
  ↔ (∃ y, l !! k = Some y ∧ (y = x ∨ Pool_eq (h y) (h x) = true))
    ∧ ∀ j y, (j < k)%nat → l !! j = Some y →
        y ≠ x ∧ Pool_eq (h y) (h x) = false.
Proof.
  revert k. induction l as [|y l IH]; intros k; simpl.
  - split; [done|]. by intros [(z & Hz & _) _].
  - destruct (bool_decide (y = x) || Pool_eq (h y) (h x)) eqn:E.
    + split.
      * intros [= <-]. split; [|lia]. exists y. split; [done|].
        apply orb_true_iff in E as [Hd|Hpe]; [|by right].
        left. by apply bool_decide_eq_true in Hd.
      * intros [_ Hfirst]. destruct k as [|k]; [done|].
        destruct (Hfirst 0%nat y ltac:(lia) eq_refl) as [Hne Hpe].
        rewrite bool_decide_eq_false_2, Hpe in E by done. done.
    + apply orb_false_iff in E as [Hd Hpe]. apply bool_decide_eq_false in Hd.
      destruct k as [|k].
      * split.
        -- destruct (list_index Pool_eq h x l); done.
        -- intros [(z & [= <-] & [?|Hz]) _]; congruence.
      * specialize (IH k).
        destruct (list_index Pool_eq h x l) as [k'|] eqn:Ek; simpl.
        -- split.
           ++ intros [= ->]. destruct (proj1 IH eq_refl) as [Hex Hfirst].
              split; [done|]. intros [|j] z Hj Hz.
              ** by injection Hz as <-.
              ** apply (Hfirst j z); [lia|done].
           ++ intros [Hex Hfirst].
              assert (Some k' = Some k) as [= ->]; [|done].
              apply IH. split; [done|].
              intros j z Hj Hz. apply (Hfirst (S j) z); [lia|done].
        -- split; [done|]. intros [Hex Hfirst].
           assert (None = Some k) as Habs; [|done]. apply IH.
           split; [done|]. intros j z Hj Hz.
           apply (Hfirst (S j) z); [lia|done].
Qed.

(** Where a pool is found in a route that holds it once and holds no other
    pool equal to it. *)
Lemma list_index_own_position h x l k :
  l !! k = Some x →
  NoDup l →
  (∀ y, y ∈ l → y ≠ x → Pool_eq (h y) (h x) = false) →
  list_index Pool_eq h x l = Some k.
Proof.
  intros Hk Hnd Hne. apply list_index_Some. split; [eauto|].
  intros j y Hj Hy.
  assert (y ≠ x) as Hyx.
  { intros ->. pose proof (NoDup_lookup _ _ _ _ Hnd Hy Hk). lia. }
  split; [done|]. apply Hne; [|done]. by eapply list_elem_of_lookup_2.
Qed.

(** The first pool's outward denom, on a cycle. *)
Lemma outward_denom (p : Pool num) arb_denom d :
  other_denom p arb_denom = Some d →
  (if decide (token1_denom p = arb_denom) then token2_denom p
   else token1_denom p) = d.
Proof.
  unfold other_denom. intros Hp. repeat case_decide; by simplify_eq.
Qed.

(** X12. [order_pools] raises exactly when the swap's contract address is
    not a key of [contracts] ([KeyError]) or the route holds neither the
    pool registered under it nor a pool equal to it ([ValueError]); it never
    raises otherwise, whatever the length of the route.  The position it
    orders by is the first one that holds the registered pool or a pool
    equal to it. *)
Theorem order_pools_raises h contracts swap arb_denom self :
  (order_pools Pool_eq h contracts swap arb_denom self = None
   ↔ contracts !! contract_address swap = None
     ∨ ∃ target,
         contracts !! contract_address swap = Some target
         ∧ ∀ y, y ∈ pools self → y ≠ target ∧ Pool_eq (h y) (h target) = false)
  ∧ (∀ target k,
       list_index Pool_eq h target (pools self) = Some k
       ↔ (∃ y, pools self !! k = Some y
               ∧ (y = target ∨ Pool_eq (h y) (h target) = true))
         ∧ ∀ j y, (j < k)%nat → pools self !! j = Some y →
             y ≠ target ∧ Pool_eq (h y) (h target) = false).
Proof.
  split; [|intros target k; apply list_index_Some].
  destruct (contracts !! contract_address swap) as [target|] eqn:Hc.
  - destruct (list_index Pool_eq h target (pools self)) as [k|] eqn:Hk.
    + pose proof (order_pools_by_position Pool_eq h contracts swap arb_denom
                    self target k Hc Hk) as Hpos.
      split.
      * intros Hnone. rewrite Hnone in Hpos.
        destruct k as [|[|[|k]]]; try done. by destruct Hpos as (? & _ & ?).
      * intros [?|(target' & [= <-] & Hall)]; [done|].
        apply list_index_None in Hall. congruence.
    + split.
      * intros _. right. exists target. split; [done|].
        by apply list_index_None.
      * intros _. unfold order_pools. rewrite Hc. simpl. by rewrite Hk.
  - split; [by left|]. intros _. unfold order_pools. by rewrite Hc.
Qed.

(** X13. Ordering is stable: on a three-pool cycle through three different
    denoms whose pools are three distinct objects, none equal to the
    swapped pool but itself, and with a swap that pays out one of the
    swapped pool's denoms, ordering the ordered route once more with the
    same swap changes nothing. *)
Theorem order_pools_stable h contracts swap arb_denom self target p0 p1 p2
    d1 d2 :
  pools self = [p0; p1; p2] →
  NoDup (pools self) →
  other_denom (h p0) arb_denom = Some d1 →
  other_denom (h p1) d1 = Some d2 →
  other_denom (h p2) d2 = Some arb_denom →
  arb_denom ≠ d1 → d1 ≠ d2 → d2 ≠ arb_denom →
  contracts !! contract_address swap = Some target →
  target ∈ pools self →
  (∀ y, y ∈ pools self → y ≠ target → Pool_eq (h y) (h target) = false) →
  is_Some (other_denom (h target) (output_denom swap)) →
  ∃ self',
    order_pools Pool_eq h contracts swap arb_denom self = Some self'
    ∧ order_pools Pool_eq h contracts swap arb_denom self' = Some self'.
Proof.
  intros Hp Hnd H0 H1 H2 Hn1 Hn2 Hn3 Hc Hin Hne Hd.
  pose proof (other_denom_sym _ _ _ H2) as H2'.
  apply other_denom_is_Some in Hd.
  assert (pools (pools_reverse self) = [p2; p1; p0]) as Hr
    by (simpl; by rewrite Hp).
  assert (NoDup (pools (pools_reverse self))) as Hnd'.
  { simpl. by rewrite reverse_Permutation. }
  assert (∀ y, y ∈ pools (pools_reverse self) → y ≠ target →
               Pool_eq (h y) (h target) = false) as Hne'.
  { intros y Hy. apply Hne.
    change (y ∈ reverse (pools self)) in Hy. by apply elem_of_reverse. }
  (* the position of the target in either direction *)
  assert (∀ k, pools self !! k = Some target →
            list_index Pool_eq h target (pools self) = Some k) as Hidx
    by (intros k Hk; by apply list_index_own_position).
  assert (∀ k, pools (pools_reverse self) !! k = Some target →
            list_index Pool_eq h target (pools (pools_reverse self)) = Some k)
    as Hidx' by (intros k Hk; by apply list_index_own_position).
  rewrite Hp in Hin.
  assert (target = p0 ∨ target = p1 ∨ target = p2) as Hcases by set_solver.
  destruct Hcases as [->|[->| ->]].
  - (* the first pool *)
    pose proof (order_pools_by_position Pool_eq h contracts swap arb_denom
                  self p0 0%nat Hc (Hidx 0%nat ltac:(by rewrite Hp))) as Hfst.
    pose proof (order_pools_by_position Pool_eq h contracts swap arb_denom
                  (pools_reverse self) p0 2%nat Hc (Hidx' 2%nat ltac:(by rewrite Hr)))
      as Hsnd.
    simpl in Hfst, Hsnd.
    destruct (decide (output_denom swap ≠ arb_denom)) as [Hx|Hx].
    + exists (pools_reverse self). split; [done|].
      rewrite Hsnd. by rewrite decide_False.
    + exists self. done.
  - (* the middle pool *)
    pose proof (order_pools_by_position Pool_eq h contracts swap arb_denom
                  self p1 1%nat Hc (Hidx 1%nat ltac:(by rewrite Hp))) as Hfst.
    pose proof (order_pools_by_position Pool_eq h contracts swap arb_denom
                  (pools_reverse self) p1 1%nat Hc (Hidx' 1%nat ltac:(by rewrite Hr)))
      as Hsnd.
    destruct Hfst as (f & Hf & Hfst). destruct Hsnd as (f' & Hf' & Hsnd).
    rewrite Hp in Hf. rewrite Hr in Hf'.
    injection Hf as <-. injection Hf' as <-. simpl in Hfst, Hsnd.
    rewrite (outward_denom _ _ _ H0) in Hfst.
    rewrite (outward_denom _ _ _ H2') in Hsnd.
    destruct (decide (output_denom swap ≠ d1)) as [Hx|Hx].
    + exists (pools_reverse self). split; [done|].
      rewrite Hsnd. rewrite decide_False; [done|].
      apply other_denom_tokens in H1. intros Hy. destruct H1, Hd; naive_solver.
    + exists self. done.
  - (* the last pool *)
    pose proof (order_pools_by_position Pool_eq h contracts swap arb_denom
                  self p2 2%nat Hc (Hidx 2%nat ltac:(by rewrite Hp))) as Hfst.
    pose proof (order_pools_by_position Pool_eq h contracts swap arb_denom
                  (pools_reverse self) p2 0%nat Hc (Hidx' 0%nat ltac:(by rewrite Hr)))
      as Hsnd.
    simpl in Hfst, Hsnd.
    destruct (decide (output_denom swap = arb_denom)) as [Hx|Hx].
    + exists (pools_reverse self). split; [done|].
      rewrite Hsnd. by rewrite decide_False by (by intros []).
    + exists self. done.
Qed.

(** X14. On a two-pool cycle through two different denoms, with a swap that
    pays out one of the two denoms of the pool found for it, [order_pools]
    leaves a route that feeds that pool the denom the swap pays out: a
    two-pool route is ordered against the swap as a three-pool route is. *)
Theorem order_pools_two_pool_cycle h contracts swap arb_denom self target
    p0 p1 d1 k pk :
  pools self = [p0; p1] →
  other_denom (h p0) arb_denom = Some d1 →
  other_denom (h p1) d1 = Some arb_denom →
  arb_denom ≠ d1 →
  contracts !! contract_address swap = Some target →
  list_index Pool_eq h target (pools self) = Some k →
  pools self !! k = Some pk →
  is_Some (other_denom (h pk) (output_denom swap)) →
  ∃ self' k',
    order_pools Pool_eq h contracts swap arb_denom self = Some self'
    ∧ pools self' !! k' = Some pk
    ∧ denom_after h arb_denom (take k' (pools self'))
      = Some (output_denom swap).
Proof.
  intros Hp H0 H1 Hn1 Hc Hk Hpk Hd.
  pose proof (order_pools_by_position Pool_eq h contracts swap arb_denom self
                target k Hc Hk) as Hpos.
  pose proof (other_denom_sym _ _ _ H1) as H1'.
  apply other_denom_is_Some in Hd.
  rewrite Hp in Hpk.
  destruct k as [|[|k]]; simpl in Hpk; [| |by rewrite lookup_nil in Hpk].
  - assert (pk = p0) as -> by congruence.
    rewrite Hpos. destruct (decide (output_denom swap ≠ arb_denom)) as [Hx|Hx].
    + exists (pools_reverse self), 1%nat. simpl. rewrite Hp.
      split_and!; [done|done|]. simpl. rewrite H1'. simpl.
      apply other_denom_tokens in H0. f_equal. destruct H0, Hd; naive_solver.
    + exists self, 0%nat. rewrite Hp. split_and!; [done|done|].
      simpl. f_equal. by destruct (decide (output_denom swap = arb_denom)).
  - assert (pk = p1) as -> by congruence.
    destruct Hpos as (f & Hf & Hpos). rewrite Hp in Hf. injection Hf as <-.
    simpl in Hpos. rewrite (outward_denom _ _ _ H0) in Hpos. rewrite Hpos.
    destruct (decide (output_denom swap ≠ d1)) as [Hx|Hx].
    + exists (pools_reverse self), 0%nat. simpl. rewrite Hp.
      split_and!; [done|done|]. simpl.
      apply other_denom_tokens in H1. f_equal. destruct H1, Hd; naive_solver.
    + exists self, 1%nat. rewrite Hp. split_and!; [done|done|].
      simpl. rewrite H0. simpl. f_equal.
      by destruct (decide (output_denom swap = d1)).
Qed.

(** X15. A four-pool cycle is not ordered: when the swap is against the
    third pool and pays out what that pool pays out in the stored order,
    [order_pools] leaves the route as it is, although the stored order
    feeds that pool its other denom and the reversed order would feed it
    the denom the swap pays out. *)
Theorem order_pools_four_pool_cycle h contracts swap arb_denom self target
    p0 p1 p2 p3 d1 d2 d3 :
  pools self = [p0; p1; p2; p3] →
  other_denom (h p0) arb_denom = Some d1 →
  other_denom (h p1) d1 = Some d2 →
  other_denom (h p2) d2 = Some d3 →
  other_denom (h p3) d3 = Some arb_denom →
  d3 ≠ arb_denom → d2 ≠ d3 →
  contracts !! contract_address swap = Some target →
  list_index Pool_eq h target (pools self) = Some 2%nat →
  output_denom swap = d3 →
  order_pools Pool_eq h contracts swap arb_denom self = Some self
  ∧ pools self !! 2%nat = Some p2
  ∧ denom_after h arb_denom (take 2 (pools self)) = Some d2
  ∧ d2 ≠ output_denom swap
  ∧ pools (pools_reverse self) !! 1%nat = Some p2
  ∧ denom_after h arb_denom (take 1 (pools (pools_reverse self)))
    = Some (output_denom swap).
Proof.
  intros Hp H0 H1 H2 H3 Hn3 Hn2 Hc Hk Hout.
  pose proof (order_pools_by_position Pool_eq h contracts swap arb_denom self
                target 2%nat Hc Hk) as Hpos.
  simpl in Hpos. rewrite decide_False in Hpos by congruence.
  pose proof (other_denom_sym _ _ _ H3) as H3'.
  split_and!; [done| | |congruence| |].
  - by rewrite Hp.
  - rewrite Hp. simpl. rewrite H0. simpl. by rewrite H1.
  - simpl. by rewrite Hp.
  - simpl. rewrite Hp. simpl. rewrite H3'. simpl. by rewrite Hout.
Qed.

End OrderMore.

(** ** More on simulating a route *)

Section ProfitMore.

Context {num : Type}.
Variable calculate_swap : Z → Z → Z → num → num → bool → Z * Z * Z.
Implicit Types (h : heap num) (self : Route) (l : list loc) (pool : loc).

(** The loop never raises. *)
Lemma profit_loop_runs self h :
  ∃ h',
    for_each (profit_body calculate_swap self) (enumerate (pools self)) h
    = Some h'
    ∧ same_but_amounts h h'.
Proof.
  destruct (profit_loop_prefix calculate_swap self h (length (pools self)))
    as (h' & Hrun & Hsame & _); [done|].
  rewrite take_ge in Hrun by (unfold enumerate; by rewrite length_imap).
  eauto.
Qed.

(** What a pool holds after the loop: the input and the output of its last
    pass. *)
Lemma profit_loop_final self h h' i pool :
  for_each (profit_body calculate_swap self) (enumerate (pools self)) h
  = Some h' →
  pools self !! i = Some pool →
  pool ∉ drop (S i) (pools self) →
  pool_amount_in (h' pool)
  = amount_after calculate_swap h (amount_in self) (take i (pools self))
  ∧ pool_amount_out (h' pool)
    = amount_after calculate_swap h (amount_in self) (take (S i) (pools self)).
Proof.
  intros Hrun Hi Hlast. pose proof (lookup_lt_Some _ _ _ Hi) as Hlt.
  destruct (profit_loop_prefix calculate_swap self h (S i))
    as (h_i & Hrun_i & _ & Hpass); [lia|].
  rewrite (profit_loop_suffix_frame calculate_swap self h (S i) h_i h'
             Hrun_i Hrun pool Hlast).
  by apply Hpass.
Qed.

Lemma amount_after_same h1 h2 a l :
  same_but_amounts h1 h2 →
  amount_after calculate_swap h2 a l = amount_after calculate_swap h1 a l.
Proof.
  intros Hsame. revert a. unfold amount_after.
  induction l as [|pool l IH]; intros a; simpl; [done|].
  by rewrite (pool_swap_same calculate_swap _ _ _ _ Hsame), IH.
Qed.

Lemma pool_ext (p q : Pool num) :
  clear_amounts p = clear_amounts q →
  pool_amount_in p = pool_amount_in q →
  pool_amount_out p = pool_amount_out q →
  p = q.
Proof.
  destruct p, q. unfold clear_amounts. simpl. intros [=] -> ->.
  by subst.
Qed.

Lemma last_occurrence l pool :
  pool ∈ l → ∃ i, l !! i = Some pool ∧ pool ∉ drop (S i) l.
Proof.
  intros Hin.
  destruct (list_elem_of_split_r l pool Hin) as (l1 & l2 & -> & Hout).
  exists (length l1). split; [apply list_lookup_middle; done|].
  rewrite cons_middle, app_assoc.
  rewrite drop_app_length'; [done|]. rewrite length_app. simpl. lia.
Qed.

(** X16. The simulation reads only reserves and fees from the pools: from
    two stores that differ at most in the [amount_in] and [amount_out] of
    pools, it returns the same profit and sets the same route, and leaves
    every pool of the route the same in both.  So running it a second time
    returns the same profit and changes no pool. *)
Theorem calculate_and_set_profit_overwrites h1 h2 self v h1' self' :
  same_but_amounts h1 h2 →
  calculate_and_set_profit calculate_swap h1 self = Some (v, h1', self') →
  (∃ h2',
     calculate_and_set_profit calculate_swap h2 self = Some (v, h2', self')
     ∧ (∀ q, q ∈ pools self → h2' q = h1' q)
     ∧ (∀ q, q ∉ pools self → h2' q = h2 q))
  ∧ (∃ h'',
       calculate_and_set_profit calculate_swap h1' self' = Some (v, h'', self')
       ∧ ∀ q, h'' q = h1' q).
Proof.
  intros Hsame Hrun1.
  (* the store after a run, on the pools of the route *)
  assert (∀ (ha hb ha' hb' : heap num) (s : Route),
            same_but_amounts ha hb →
            for_each (profit_body calculate_swap s) (enumerate (pools s)) ha
            = Some ha' →
            for_each (profit_body calculate_swap s) (enumerate (pools s)) hb
            = Some hb' →
            ∀ q, q ∈ pools s → hb' q = ha' q) as Hagree.
  { intros ha hb ha' hb' s Hab Ha Hb q Hq.
    destruct (last_occurrence _ _ Hq) as (i & Hi & Hlast).
    destruct (profit_loop_final s ha ha' i q Ha Hi Hlast) as [Hina Houta].
    destruct (profit_loop_final s hb hb' i q Hb Hi Hlast) as [Hinb Houtb].
    destruct (profit_loop_runs s ha) as (ha'' & Ha'' & Hsa).
    destruct (profit_loop_runs s hb) as (hb'' & Hb'' & Hsb).
    rewrite Ha in Ha''. injection Ha'' as <-.
    rewrite Hb in Hb''. injection Hb'' as <-.
    apply pool_ext.
    - by rewrite (Hsb q), (Hab q), (Hsa q).
    - by rewrite Hina, Hinb, (amount_after_same _ _ _ _ Hab).
    - by rewrite Houta, Houtb, (amount_after_same _ _ _ _ Hab). }
  (* any run, unfolded *)
  assert (∀ (ha : heap num) (s : Route) r,
            calculate_and_set_profit calculate_swap ha s = Some r →
            ∃ ha' last_pool first_pool,
              for_each (profit_body calculate_swap s) (enumerate (pools s)) ha
              = Some ha'
              ∧ last (pools s) = Some last_pool
              ∧ pools s !! 0%nat = Some first_pool
              ∧ r = (pool_amount_out (ha' last_pool)
                     - pool_amount_in (ha' first_pool), ha',
                     set_profit (pool_amount_out (ha' last_pool)
                                 - pool_amount_in (ha' first_pool)) s))
    as Hunfold.
  { intros ha s r. unfold calculate_and_set_profit.
    destruct (profit_loop_runs s ha) as (ha' & -> & _).
    change (Some ha' ≫= ?f) with (f ha').
    destruct (last (pools s)) as [last_pool|]; [|done].
    destruct (pools s !! 0%nat) as [first_pool|]; [|done].
    intros [= <-]. by exists ha', last_pool, first_pool. }
  assert (∀ (ha ha' : heap num) (s : Route) last_pool first_pool,
            for_each (profit_body calculate_swap s) (enumerate (pools s)) ha
            = Some ha' →
            last (pools s) = Some last_pool →
            pools s !! 0%nat = Some first_pool →
            calculate_and_set_profit calculate_swap ha s
            = Some (pool_amount_out (ha' last_pool)
                    - pool_amount_in (ha' first_pool), ha',
                    set_profit (pool_amount_out (ha' last_pool)
                                - pool_amount_in (ha' first_pool)) s))
    as Hfold.
  { intros ha ha' s last_pool first_pool Hrun Hl Hf.
    unfold calculate_and_set_profit. rewrite Hrun.
    change (Some ha' ≫= ?f) with (f ha'). by rewrite Hl, Hf. }
  destruct (Hunfold _ _ _ Hrun1)
    as (ha' & last_pool & first_pool & Hloop1 & Hl & Hf & Hr).
  injection Hr as -> <- ->.
  assert (last_pool ∈ pools self) as Hlin.
  { rewrite last_lookup in Hl. by eapply list_elem_of_lookup_2. }
  assert (first_pool ∈ pools self) as Hfin
    by (by eapply list_elem_of_lookup_2).
  split.
  - destruct (profit_loop_runs self h2) as (h2' & Hloop2 & _).
    exists h2'. split_and!.
    + rewrite (Hfold _ _ _ _ _ Hloop2 Hl Hf).
      by rewrite (Hagree _ _ _ _ _ Hsame Hloop1 Hloop2 last_pool Hlin),
        (Hagree _ _ _ _ _ Hsame Hloop1 Hloop2 first_pool Hfin).
    + intros q Hq. by apply (Hagree _ _ _ _ _ Hsame Hloop1 Hloop2).
    + intros q Hq. apply (profit_loop_frame calculate_swap _ _ _ _ Hloop2).
      by rewrite enumerate_snd.
  - set (v := pool_amount_out (h1' last_pool) - pool_amount_in (h1' first_pool)).
    destruct (profit_loop_runs self h1) as (h1'' & Hloop1' & Hs1).
    rewrite Hloop1 in Hloop1'. injection Hloop1' as <-.
    destruct (profit_loop_runs (set_profit v self) h1') as (h'' & Hloop3 & _).
    assert (∀ q, h'' q = h1' q) as Hsameq.
    { intros q. destruct (decide (q ∈ pools self)) as [Hq|Hq].
      - apply (Hagree h1 h1' h1' h'' self Hs1 Hloop1 Hloop3 q Hq).
      - apply (profit_loop_frame calculate_swap _ _ _ _ Hloop3).
        by rewrite enumerate_snd. }
    exists h''. split; [|done].
    rewrite (Hfold h1' h'' (set_profit v self) last_pool first_pool Hloop3 Hl Hf).
    by rewrite !Hsameq.
Qed.

(** X17. [calculate_and_set_profit] raises exactly on a route without
    pools, where [self.pools[-1]] is out of range. *)
Theorem calculate_and_set_profit_raises h self :
  calculate_and_set_profit calculate_swap h self = None ↔ pools self = [].
Proof.
  unfold calculate_and_set_profit.
  destruct (profit_loop_runs self h) as (h' & -> & _).
  change (Some h' ≫= ?f) with (f h').
  destruct (pools self) as [|pool l] eqn:E.
  - done.
  - split; [|done].
    destruct (last (pool :: l)) as [last_pool|] eqn:El.
    + done.
    + by apply last_None in El.
Qed.

(** X21. The profit is measured against the last pass that visits the
    first pool: when position [i] is the last one that holds the first pool
    of the route, the profit returned is what leaves the whole chain minus
    what entered pool [i].  For [i = 0] that is the route's [amount_in];
    for a route that comes back to its first pool it is not. *)
Theorem calculate_and_set_profit_last_visit h self first_pool i :
  pools self !! 0%nat = Some first_pool →
  pools self !! i = Some first_pool →
  first_pool ∉ drop (S i) (pools self) →
  ∃ h',
    calculate_and_set_profit calculate_swap h self
    = Some (amount_after calculate_swap h (amount_in self) (pools self)
            - amount_after calculate_swap h (amount_in self)
                (take i (pools self)),
            h',
            set_profit
              (amount_after calculate_swap h (amount_in self) (pools self)
               - amount_after calculate_swap h (amount_in self)
                   (take i (pools self))) self).
Proof.
  intros Hfirst Hi Hlast.
  destruct (profit_loop_runs self h) as (h' & Hloop & _).
  pose proof (lookup_lt_Some _ _ _ Hfirst) as Hlen.
  destruct (lookup_lt_is_Some_2 (pools self) (pred (length (pools self))))
    as [last_pool Hl]; [lia|].
  assert (last_pool ∉ drop (S (pred (length (pools self)))) (pools self))
    as Hlast'.
  { rewrite drop_ge by lia. apply not_elem_of_nil. }
  destruct (profit_loop_final self h h' _ _ Hloop Hl Hlast') as [_ Hout].
  rewrite take_ge in Hout by lia.
  destruct (profit_loop_final self h h' _ _ Hloop Hi Hlast) as [Hin _].
  exists h'. unfold calculate_and_set_profit. rewrite Hloop.
  change (Some h' ≫= ?f) with (f h').
  rewrite last_lookup, Hl, Hfirst. simpl. by rewrite Hout, Hin.
Qed.

End ProfitMore.

(** ** Sizing and simulating *)

Section OptimalMore.

Context `{PyArith num}.
Variable calculate_swap : Z → Z → Z → num → num → bool → Z * Z * Z.
Implicit Types (h : heap num) (self : Route) (l : list loc).

Lemma for_each_ext {A S} (f g : S → A → option S) (l : list A) :
  (∀ s x, x ∈ l → f s x = g s x) → ∀ s, for_each f l s = for_each g l s.
Proof.
  induction l as [|x l IH]; intros Hfg s; [done|].
  rewrite !for_each_cons, (Hfg s x) by left.
  destruct (g s x) as [s'|]; simpl; [|done].
  apply IH. intros s0 y Hy. apply Hfg. by right.
Qed.

(** The first loop reads reserves and fees only. *)
Lemma append_pool_same h1 h2 ls pool :
  same_but_amounts h1 h2 → append_pool h2 ls pool = append_pool h1 ls pool.
Proof.
  intros Hsame. specialize (Hsame pool). unfold append_pool, clear_amounts in *.
  destruct (h1 pool), (h2 pool). simpl in *. by simplify_eq.
Qed.

Lemma optimal_same_store h1 h2 self :
  same_but_amounts h1 h2 →
  calculate_and_set_optimal_amount_in h2 self
  = calculate_and_set_optimal_amount_in h1 self.
Proof.
  intros Hsame. unfold calculate_and_set_optimal_amount_in.
  rewrite (for_each_ext (append_pool h2) (append_pool h1)); [done|].
  intros ls pool _. by apply append_pool_same.
Qed.

(** The value computed depends on the route through its pools only, and
    only [optimal_amount_in] is set. *)
Lemma optimal_value h l :
  ∃ ov : option Z, ∀ self,
    pools self = l →
    calculate_and_set_optimal_amount_in h self
    = (λ o, set_optimal_amount_in o self) <$> ov.
Proof.
  exists (optimal_amount_in
          <$> calculate_and_set_optimal_amount_in h
                {| pools := l; profit := 0; optimal_amount_in := 0;
                   amount_in := 0 |}).
  intros self Hl. unfold calculate_and_set_optimal_amount_in. rewrite Hl.
  cbn [pools].
  destruct (for_each (append_pool h) l ([], [], [], []))
    as [[[[a b] c] d]|]; [|done].
  cbn [mbind option_bind].
  destruct (of_int <$> a !! 0%nat) as [x|]; [|done].
  destruct (of_int <$> b !! 0%nat) as [y|]; [|done].
  cbn [mbind option_bind].
  destruct (for_each a_prime_body _ (x, y)) as [[x' y']|]; [|done].
  cbn [mbind option_bind].
  by destruct (lift1 math_floor _).
Qed.

(** X18. Simulating does not disturb sizing, nor sizing simulating: when
    the simulation returns profit [v] and sizing sets the route [self_o],
    sizing after the simulation and simulating after sizing both end with
    the route [self_o] carrying profit [v], and with the same store. *)
Theorem simulate_and_size_commute h self v h' self' self_o :
  calculate_and_set_profit calculate_swap h self = Some (v, h', self') →
  calculate_and_set_optimal_amount_in h self = Some self_o →
  calculate_and_set_optimal_amount_in h' self' = Some (set_profit v self_o)
  ∧ calculate_and_set_profit calculate_swap h self_o
    = Some (v, h', set_profit v self_o).
Proof.
  intros Hsim Hopt.
  destruct (profit_loop_runs calculate_swap self h) as (h1 & Hloop & Hsame).
  assert (self' = set_profit v self ∧ h' = h1) as [-> ->].
  { unfold calculate_and_set_profit in Hsim. rewrite Hloop in Hsim.
    change (Some h1 ≫= ?f) with (f h1) in Hsim.
    destruct (last (pools self)) as [last_pool|]; [|done].
    destruct (pools self !! 0%nat) as [first_pool|]; [|done].
    by injection Hsim as <- <- <-. }
  destruct (optimal_value h (pools self)) as (ov & Hov).
  rewrite (Hov self eq_refl) in Hopt.
  destruct ov as [o|]; [|done]. injection Hopt as <-.
  split.
  - rewrite (optimal_same_store h h1 _ Hsame).
    by rewrite (Hov (set_profit v self) eq_refl).
  - unfold calculate_and_set_profit in Hsim |- *.
    change (profit_body calculate_swap (set_optimal_amount_in o self))
      with (profit_body calculate_swap self).
    change (pools (set_optimal_amount_in o self)) with (pools self).
    rewrite Hloop in Hsim |- *.
    change (Some h1 ≫= ?f) with (f h1) in Hsim |- *.
    destruct (last (pools self)) as [last_pool|]; [|done].
    destruct (pools self !! 0%nat) as [first_pool|]; [|done].
    by injection Hsim as <-.
Qed.

End OptimalMore.

(** ** The payload of a contract query *)

Section PayloadFacts.

Context {Query : Type} (request_bytes : string → Query → list byte).

Lemma hex_value_high b :
  hex_value (hex_digit (Byte.to_nat b / 16)) = Some (Byte.to_nat b / 16)%nat.
Proof. destruct b; reflexivity. Qed.

Lemma hex_value_low b :
  hex_value (hex_digit (Byte.to_nat b mod 16))
  = Some (Byte.to_nat b mod 16)%nat.
Proof. destruct b; reflexivity. Qed.

Lemma b16decode_b16encode data : b16decode (b16encode data) = Some data.
Proof.
  induction data as [|b data IH]; [done|].
  cbn [b16encode b16decode].
  rewrite hex_value_high, hex_value_low. cbn [mbind option_bind].
  rewrite <- Nat.div_mod_eq, Byte.of_to_nat. cbn [mbind option_bind].
  by rewrite IH.
Qed.



(** X20. Two payloads are equal only when they were built for the same
    request bytes and the same height: nothing of the request is lost in
    the payload. *)
Theorem create_payload_inj contract_address query height
    contract_address' query' height' :
  create_payload request_bytes contract_address query height
  = create_payload request_bytes contract_address' query' height' →
  request_bytes contract_address query
  = request_bytes contract_address' query'
  ∧ height = height'.
Proof.
  unfold create_payload. intros Heq.
  assert (∀ d d', b16encode d = b16encode d' → d = d') as Hinj.
  { intros d d' Hd.
    assert (b16decode (b16encode d) = b16decode (b16encode d')) as Hdec
      by (by rewrite Hd).
    rewrite !b16decode_b16encode in Hdec. by injection Hdec. }
  destruct (decide (height ≠ EmptyString)) as [Hne|He];
    destruct (decide (height' ≠ EmptyString)) as [Hne'|He'];
    simpl in Heq; try discriminate.
  - injection Heq as Hd Hh. split; [by apply Hinj|done].
  - injection Heq as Hd. apply dec_stable in He, He'. subst.
    split; [by apply Hinj|done].
Qed.

End PayloadFacts.

(** ** On the examples *)

Section MoreExamples.

Import Binary64 Example.

Lemma query_node_returns_first_new_witness :
  query_node_for_new_mempool_txs
    ([NoResponse; Txs ["c"]] ++ Txs ["a"; "b"; "a"] :: []) {["c"]}
  = Some (unseen (cache_for_batch {["c"]}) ["a"; "b"; "a"],
          cache_for_batch {["c"]} ∪ list_to_set ["a"; "b"; "a"])
  ∧ unseen (cache_for_batch {["c"]}) ["a"; "b"; "a"] = ["a"; "b"].
Proof.
  split; [|vm_compute; reflexivity].
  apply (query_node_returns_first_new [NoResponse; Txs ["c"]] ["a"; "b"; "a"]
           [] {["c"]}).
  - repeat constructor. intros tx Htx.
    apply list_elem_of_singleton in Htx as ->.
    apply (bool_decide_unpack _). vm_compute. exact I.
  - vm_compute. discriminate.
Defined.

Lemma cache_size_bounded_witness :
  (size (cache_after [Txs ["a"]] ∅) ≤ 200 + 1)%nat.
Proof.
  assert (∀ txs, Txs txs ∈ [Txs ["a"]] → (length txs ≤ 1)%nat) as Hbatch.
  { intros txs Hin. apply list_elem_of_singleton in Hin.
    injection Hin as ->. simpl. lia. }
  apply (proj1 (cache_size_bounded 1 [Txs ["a"]] ∅ Hbatch)).
  rewrite size_empty. lia.
Defined.

Lemma identifier_reported_again_witness :
  ∃ new seen',
    query_node_for_new_mempool_txs ([NoResponse] ++ Txs ["tx0"] :: []) seen201
    = Some (new, seen')
    ∧ "tx0" ∈ new.
Proof.
  apply (identifier_reported_again [NoResponse] ["tx0"] [] seen201 "tx0").
  - vm_compute. lia.
  - apply (bool_decide_unpack _). vm_compute. exact I.
  - repeat constructor.
  - left.
Defined.

Lemma successive_calls_disjoint_witness :
  (∀ tx, tx ∈ ["a"; "b"] → tx ∉ ["d"])
  ∧ (∀ tx, tx ∈ ["a"; "b"] → tx ∈ ({["d"]} ∪ ({["b"]} ∪ ({["a"]} ∪ ∅)) : gset string))
  ∧ ({["b"]} ∪ ({["a"]} ∪ ∅) : gset string) ⊆ {["d"]} ∪ ({["b"]} ∪ ({["a"]} ∪ ∅)).
Proof.
  apply (successive_calls_disjoint [Txs ["a"; "b"]] [Txs ["a"]; Txs ["b"; "d"]]
           ∅ ["a"; "b"] ({["b"]} ∪ ({["a"]} ∪ ∅)) ["d"]
           ({["d"]} ∪ ({["b"]} ∪ ({["a"]} ∪ ∅)))).
  - vm_compute. reflexivity.
  - vm_compute. lia.
  - vm_compute. reflexivity.
Defined.

Lemma update_account_balance_reset_witness :
  amount_in (calculate_and_set_amount_in 0 30
    {| pools := []; profit := 0; optimal_amount_in := 7; amount_in := 0 |})
  = - 30.
Proof.
  destruct (update_account_balance_reset ConnectionLost (Ok tt) 0 true eq_refl)
    as (_ & _ & _ & Hsize).
  apply Hsize; [reflexivity|lia|simpl; lia].
Defined.

Lemma calculate_and_set_amount_in_negative_witness :
  amount_in (calculate_and_set_amount_in 10 30
    {| pools := []; profit := 0; optimal_amount_in := 7; amount_in := 0 |}) < 0.
Proof.
  apply (proj1 (calculate_and_set_amount_in_negative 10 30
           {| pools := []; profit := 0; optimal_amount_in := 7;
              amount_in := 0 |} ltac:(simpl; lia))).
  simpl. lia.
Defined.

Lemma order_pools_stable_witness :
  ∃ self',
    order_pools dataclass_eq store contracts (swap_on "juno1bc" "C") "A" route3
    = Some self'
    ∧ order_pools dataclass_eq store contracts (swap_on "juno1bc" "C") "A" self'
      = Some self'.
Proof.
  apply (order_pools_stable dataclass_eq store contracts
           (swap_on "juno1bc" "C") "A" route3 1%nat 0%nat 1%nat 2%nat "B" "C");
    try (vm_compute; reflexivity); try discriminate.
  - apply (bool_decide_unpack _). vm_compute. exact I.
  - simpl. repeat constructor.
  - intros y Hy Hne. simpl in Hy.
    apply elem_of_cons in Hy as [->|Hy]; [vm_compute; reflexivity|].
    apply elem_of_cons in Hy as [->|Hy]; [done|].
    apply list_elem_of_singleton in Hy as ->. vm_compute. reflexivity.
  - vm_compute. eauto.
Defined.

Lemma order_pools_two_pool_cycle_witness :
  ∃ self' k',
    order_pools dataclass_eq store2 contracts2 (swap_on "juno1ba" "A") "A"
      route2 = Some self'
    ∧ pools self' !! k' = Some 1%nat
    ∧ denom_after store2 "A" (take k' (pools self')) = Some "A".
Proof.
  apply (order_pools_two_pool_cycle dataclass_eq store2 contracts2
           (swap_on "juno1ba" "A") "A" route2 1%nat 0%nat 1%nat "B" 1%nat
           1%nat);
    try (vm_compute; reflexivity); try discriminate.
  vm_compute. eauto.
Defined.

Lemma order_pools_four_pool_cycle_witness :
  order_pools dataclass_eq store contracts (swap_on "juno1cd" "D") "A" route4
  = Some route4
  ∧ denom_after store "A" (take 2 (pools route4)) = Some "C"
  ∧ denom_after store "A" (take 1 (pools (pools_reverse route4))) = Some "D".
Proof.
  destruct (order_pools_four_pool_cycle dataclass_eq store contracts
              (swap_on "juno1cd" "D") "A" route4 3%nat 0%nat 1%nat 3%nat 4%nat
              "B" "C" "D")
    as (H1 & _ & H2 & _ & _ & H3);
    try (vm_compute; reflexivity); try discriminate.
  split_and!; [exact H1|exact H2|exact H3].
Defined.

Lemma calculate_and_set_profit_overwrites_witness :
  ∃ v h' self',
    calculate_and_set_profit fee_free_swap store route3_funded
    = Some (v, h', self')
    ∧ ∃ h'',
        calculate_and_set_profit fee_free_swap h' self' = Some (v, h'', self')
        ∧ ∀ q, h'' q = h' q.
Proof.
  destruct (calculate_and_set_profit fee_free_swap store route3_funded)
    as [[[v h'] self']|] eqn:E; [|vm_compute in E; discriminate E].
  exists v, h', self'. split; [reflexivity|].
  exact (proj2 (calculate_and_set_profit_overwrites fee_free_swap store store
                  route3_funded v h' self'
                  (same_but_amounts_refl store) E)).
Defined.

Lemma simulate_and_size_commute_witness :
  ∃ v h' self' self_o,
    calculate_and_set_profit fee_free_swap store route3_funded
    = Some (v, h', self')
    ∧ calculate_and_set_optimal_amount_in store route3_funded = Some self_o
    ∧ calculate_and_set_optimal_amount_in h' self' = Some (set_profit v self_o)
    ∧ calculate_and_set_profit fee_free_swap store self_o
      = Some (v, h', set_profit v self_o).
Proof.
  destruct (calculate_and_set_profit fee_free_swap store route3_funded)
    as [[[v h'] self']|] eqn:E; [|vm_compute in E; discriminate E].
  destruct (calculate_and_set_optimal_amount_in store route3_funded)
    as [self_o|] eqn:Eo; [|vm_compute in Eo; discriminate Eo].
  exists v, h', self', self_o. split; [reflexivity|]. split; [reflexivity|].
  exact (simulate_and_size_commute fee_free_swap store route3_funded v h' self'
           self_o E Eo).
Defined.

Lemma create_payload_inj_witness :
  [x0a; x03]%byte = [x0a; x03]%byte ∧ "42"%string = "42"%string.
Proof.
  apply (create_payload_inj (λ _ (_ : unit), [x0a; x03]%byte)
           "juno1" tt "42" "juno2" tt "42").
  reflexivity.
Defined.

Lemma calculate_and_set_profit_last_visit_witness :
  ∃ h',
    calculate_and_set_profit fee_free_swap store route_twice
    = Some (amount_after fee_free_swap store 1000 (pools route_twice)
            - amount_after fee_free_swap store 1000 (take 3 (pools route_twice)),
            h',
            set_profit
              (amount_after fee_free_swap store 1000 (pools route_twice)
               - amount_after fee_free_swap store 1000
                   (take 3 (pools route_twice))) route_twice).
Proof.
  apply (calculate_and_set_profit_last_visit fee_free_swap store route_twice
           0%nat 3%nat).
  - reflexivity.
  - reflexivity.
  - simpl. apply not_elem_of_nil.
Defined.

End MoreExamples.
